(** * Segmented LRU cache (slru-cache): model and verification

    The development embeds [src/index.js] (class [SLRU]) together with the
    recency-ordered store it is built from (the [lru-cache] dependency, the
    spec's OrderedStore), and proves the cache's invariants and the
    functional behaviour of its public methods. *)

From Stdlib Require Import List ZArith NArith String Bool Lia.
Import ListNotations.

Set Implicit Arguments.

(** ** JavaScript values

    Keys and values are opaque JavaScript values.  Only the primitive ones are
    needed here; [undefined] is the value every lookup returns on a miss. *)

Inductive JsValue : Type :=
| undefined
| JsNull
| JsBool (b : bool)
| JsNum (n : Z)
| JsStr (s : string).

(** [a === b] on primitive values (also the key equality of a [Map]). *)
Definition strict_eq (a b : JsValue) : bool :=
  match a, b with
  | undefined, undefined => true
  | JsNull, JsNull => true
  | JsBool x, JsBool y => Bool.eqb x y
  | JsNum x, JsNum y => Z.eqb x y
  | JsStr x, JsStr y => String.eqb x y
  | _, _ => false
  end.

(** The outcome of a constructor call: an object, or a thrown [TypeError]
    carrying its message. *)
Inductive Result (A : Type) : Type :=
| Ok (a : A)
| Throw (message : string).

Arguments Ok {A} a.
Arguments Throw {A} message.

(** ** The recency-ordered store *)

Module LRU.

(** An entry of the store: the key, the value, and the weight the length
    calculator gave the value when it was stored. *)
Record Entry : Type := mkEntry {
  key : JsValue;
  value : JsValue;
  size : N
}.

(** The capacity of a store: a positive bound, or none. *)
Inductive Capacity : Type :=
| Infinity
| Finite (n : N).

(** The options object of the store's constructor.  [W] is the state the
    removal hook [dispose] acts on: whatever the closure captured. *)
Record Options (W : Type) : Type := mkOptions {
  max : option Z;
  length : option (JsValue -> JsValue -> N);
  dispose : option (JsValue -> JsValue -> W -> W);
  noDisposeOnSet : bool
}.

(** What [new LRU(arg)] may be given: nothing, a bare count, or options. *)
Inductive ConstructorArg (W : Type) : Type :=
| ArgUndefined
| ArgNumber (n : Z)
| ArgObject (o : Options W).

Arguments ArgUndefined {W}.
Arguments ArgNumber {W} n.

(** Modelled from the spec: the store is the [lru-cache] package, which
    [src/index.js] requires and which is not part of [src/]; the record and
    the operations of section [Store] below follow the OrderedStore contract
    of spec section 4.1, under the names [src/index.js] calls them by.
    [LRU_LIST] holds the entries from most to least recently used and stands
    for both the recency list and the key map, so a well-formed store has no
    two entries with one key. *)
Record LRUCache (W : Type) : Type := mkCache {
  MAX : Capacity;
  LENGTH_CALCULATOR : JsValue -> JsValue -> N;
  DISPOSE : option (JsValue -> JsValue -> W -> W);
  NO_DISPOSE_ON_SET : bool;
  LRU_LIST : list Entry
}.

Definition naiveLength : JsValue -> JsValue -> N := fun _ _ => 1%N.

(** Cumulative weighted size of a list of entries. *)
Definition total (l : list Entry) : N :=
  fold_right (fun e n => (size e + n)%N) 0%N l.

(** [exceeds len max] is the test [len > max]. *)
Definition exceeds (len : N) (max : Capacity) : bool :=
  match max with
  | Infinity => false
  | Finite m => (m <? len)%N
  end.

(** [options.max || Infinity]: a missing or zero [max] is no bound. *)
Definition capacity (max : option Z) : Capacity :=
  match max with
  | Some m => if (m =? 0)%Z then Infinity else Finite (Z.to_N m)
  | None => Infinity
  end.

Definition find (k : JsValue) (l : list Entry) : option Entry :=
  List.find (fun e => strict_eq (key e) k) l.

Definition remove (k : JsValue) (l : list Entry) : list Entry :=
  List.filter (fun e => negb (strict_eq (key e) k)) l.

Section Store.
Context {W : Type}.
Implicit Types (c : LRUCache W) (w : W) (k v : JsValue).

(** Modelled from the spec: construction of the store, which is missing
    from [src/] with the rest of [lru-cache].  A bare count is shorthand for
    the option [max] with unit weights (spec section 4.2).  The spec says
    nothing of the store's own checks; [lru-cache] refuses a negative [max]
    and takes a [max] of zero, like a missing one, for no bound. *)
Definition constructor (arg : ConstructorArg W) : Result (LRUCache W) :=
  let options :=
    match arg with
    | ArgNumber n => mkOptions (Some n) None None false
    | ArgUndefined => mkOptions None None None false
    | ArgObject o => o
    end in
  let invalid :=
    match max options with
    | Some m => negb (m =? 0)%Z && (m <? 0)%Z
    | None => false
    end in
  if invalid then Throw "max must be a non-negative number"
  else
    Ok {| MAX := capacity (max options);
          LENGTH_CALCULATOR := match length options with
                               | Some lc => lc
                               | None => naiveLength
                               end;
          DISPOSE := dispose options;
          NO_DISPOSE_ON_SET := noDisposeOnSet options;
          LRU_LIST := [] |}.

Definition with_list c (l : list Entry) : LRUCache W :=
  {| MAX := MAX c;
     LENGTH_CALCULATOR := LENGTH_CALCULATOR c;
     DISPOSE := DISPOSE c;
     NO_DISPOSE_ON_SET := NO_DISPOSE_ON_SET c;
     LRU_LIST := l |}.

(** Invoke the removal hook, when there is one, on a departing entry. *)
Definition call_dispose c (hit : Entry) w : W :=
  match DISPOSE c with
  | Some f => f (key hit) (value hit) w
  | None => w
  end.

Definition LENGTH c : N := total (LRU_LIST c).
Definition itemCount c : nat := List.length (LRU_LIST c).

(** Modelled from the spec: [has(key)] and [peek(key)] look the key up
    and change nothing. *)
Definition has k c : bool :=
  match find k (LRU_LIST c) with
  | Some _ => true
  | None => false
  end.

Definition peek k c : JsValue :=
  match find k (LRU_LIST c) with
  | Some hit => value hit
  | None => undefined
  end.

(** Modelled from the spec: [get(key)].  A hit becomes the most recently
    used entry and its value is returned; the hook is not called. *)
Definition get k c : JsValue * LRUCache W :=
  match find k (LRU_LIST c) with
  | Some hit => (value hit, with_list c (hit :: remove k (LRU_LIST c)))
  | None => (undefined, c)
  end.

(** Modelled from the spec: [delete(key)].  Explicit deletion is a removal
    event: the hook is called for the entry; nothing happens for a key that
    is not there. *)
Definition del k c w : LRUCache W * W :=
  match find k (LRU_LIST c) with
  | Some hit => (with_list c (remove k (LRU_LIST c)), call_dispose c hit w)
  | None => (c, w)
  end.

(** Modelled from the spec: the eviction loop of [set].  [walker] is the
    list from the least recently used entry on; while the cumulative size
    exceeds the capacity the entry under the walker leaves the store and the
    hook is called for it, one entry at a time. *)
Fixpoint evict c (walker : list Entry) w : list Entry * W :=
  match walker with
  | [] => ([], w)
  | hit :: prev =>
      if exceeds (total walker) (MAX c)
      then evict c prev (call_dispose c hit w)
      else (walker, w)
  end.

Definition trim c w : LRUCache W * W :=
  let '(kept, w') := evict c (rev (LRU_LIST c)) w in
  (with_list c (rev kept), w').

(** Modelled from the spec: [set(key, value)].  An existing key has its
    value replaced in place and becomes the most recently used entry; the
    overwritten value goes to the hook only when [noDisposeOnSet] is off
    (the option [src/index.js] turns on for the protected store).  A new key
    is inserted as the most recently used entry.  Either way the store is
    then brought back within its capacity, as its invariant demands of every
    mutating call: a heavier value may overshoot on overwrite as well. *)
Definition set k v c w : LRUCache W * W :=
  let len := LENGTH_CALCULATOR c v k in
  match find k (LRU_LIST c) with
  | Some item =>
      let w1 := if NO_DISPOSE_ON_SET c then w else call_dispose c item w in
      trim (with_list c (mkEntry k v len :: remove k (LRU_LIST c))) w1
  | None =>
      trim (with_list c (mkEntry k v len :: LRU_LIST c)) w
  end.

(** Modelled from the spec: [reset()].  Every entry goes to the hook, most
    recently used first, and the store is left empty. *)
Definition reset c w : LRUCache W * W :=
  (with_list c [],
   fold_left (fun w' hit => call_dispose c hit w') (LRU_LIST c) w).

(** Modelled from the spec: [forEach] visits from the most recently used
    entry down, [rforEach] from the least recently used entry up.  The
    callback receives [(value, key)]; its effect is a state [A]. *)
Definition forEach {A : Type} (fn : JsValue -> JsValue -> A -> A) c (a : A) : A :=
  fold_left (fun a' hit => fn (value hit) (key hit) a') (LRU_LIST c) a.

Definition rforEach {A : Type} (fn : JsValue -> JsValue -> A -> A) c (a : A) : A :=
  fold_left (fun a' hit => fn (value hit) (key hit) a') (rev (LRU_LIST c)) a.

Definition keys c : list JsValue := map key (LRU_LIST c).
Definition values c : list JsValue := map value (LRU_LIST c).

(** The part of a store that is fixed at construction. *)
Definition config c :=
  (MAX c, LENGTH_CALCULATOR c, DISPOSE c, NO_DISPOSE_ON_SET c).

(** *** Notions used to describe [set] and the eviction loop *)

(** The hook applied to a run of departing entries, in order. *)
Definition dispose_all c (gone : list Entry) w : W :=
  fold_left (fun w' hit => call_dispose c hit w') gone w.

(** The state the hook has reached when [set] enters the eviction loop. *)
Definition set_overwrite c k w : W :=
  match find k (LRU_LIST c) with
  | Some item => if NO_DISPOSE_ON_SET c then w else call_dispose c item w
  | None => w
  end.

(** The list [set] hands to the eviction loop. *)
Definition set_list c k v : list Entry :=
  mkEntry k v (LENGTH_CALCULATOR c v k) :: remove k (LRU_LIST c).

End Store.

End LRU.

(** ** The segmented cache ([src/index.js]) *)

Module SLRU.

(** What a segment may be configured with: nothing, a maximum number of
    items, or an options object for the store ([max] and [length]; the
    hook options are not supported). *)
Inductive SegmentOptions : Type :=
| NoOptions
| MaxItems (n : Z)
| StoreOptions (max : option Z) (length : option (JsValue -> JsValue -> N)).

Record Options : Type := mkOptions {
  protectedOptions : SegmentOptions;
  probationaryOptions : SegmentOptions
}.

(** The [max] a segment is configured with, if any. *)
Definition segment_max (o : SegmentOptions) : option Z :=
  match o with
  | NoOptions => None
  | MaxItems n => Some n
  | StoreOptions m _ => m
  end.

(** The length function a segment is configured with: unit weights unless
    the options give one. *)
Definition segment_length (o : SegmentOptions) : JsValue -> JsValue -> N :=
  match o with
  | StoreOptions _ (Some l) => l
  | _ => LRU.naiveLength
  end.

(** [max < 0], for a [max] that is given. *)
Definition negative (max : option Z) : bool :=
  match max with
  | Some m => (m <? 0)%Z
  | None => false
  end.

(** The probationary store has no hook; the protected store's hook acts on
    the probationary store. *)
Definition Probationary : Type := LRU.LRUCache unit.
Definition Protected : Type := LRU.LRUCache Probationary.

Record Cache : Type := mkCache {
  protectedLru : Protected;
  probationaryLru : Probationary
}.

(** Calls on the probationary store. *)
Definition probationary_set (k v : JsValue) (p : Probationary) : Probationary :=
  fst (LRU.set k v p tt).
Definition probationary_del (k : JsValue) (p : Probationary) : Probationary :=
  fst (LRU.del k p tt).
Definition probationary_reset (p : Probationary) : Probationary :=
  fst (LRU.reset p tt).

(** [(k, v) => { this.probationaryLru.set(k, v) }] *)
Definition demote (k v : JsValue) (p : Probationary) : Probationary :=
  probationary_set k v p.

(** The options a constructor call ends up using ([options = {}] when
    none are given). *)
Definition effective (options : option Options) : Options :=
  match options with
  | Some o => o
  | None => mkOptions NoOptions NoOptions
  end.

(** [constructor (options)]: the probationary store is built from its
    options as they are; the protected options, wrapped as [{ max: ... }]
    unless they are an object already, get [noDisposeOnSet = true] and the
    hook [demote].  An error thrown by either store's constructor is the
    constructor's own. *)
Definition constructor (options : option Options) : Result Cache :=
  let options := effective options in
  let probationaryArg :=
    match probationaryOptions options with
    | NoOptions => LRU.ArgUndefined
    | MaxItems n => LRU.ArgNumber n
    | StoreOptions m l => LRU.ArgObject (LRU.mkOptions m l None false)
    end in
  match LRU.constructor probationaryArg with
  | Throw e => Throw e
  | Ok probationary =>
      let '(m, l) :=
        match protectedOptions options with
        | NoOptions => (None, None)
        | MaxItems n => (Some n, None)
        | StoreOptions m l => (m, l)
        end in
      let protectedOptions' := LRU.mkOptions m l (Some demote) true in
      match LRU.constructor (LRU.ArgObject protectedOptions') with
      | Throw e => Throw e
      | Ok protected => Ok (mkCache protected probationary)
      end
  end.

Definition is_undefined (v : JsValue) : bool := strict_eq v undefined.

(** [get (key)]: a miss in both segments, judged by the value [undefined],
    returns [undefined]; a protected hit is returned; what is left is a
    probationary hit, which is deleted from the probationary store and set
    in the protected one. *)
Definition get (key : JsValue) (c : Cache) : JsValue * Cache :=
  let '(protectedItem, protected1) := LRU.get key (protectedLru c) in
  let probationaryItem := LRU.peek key (probationaryLru c) in
  if is_undefined protectedItem && is_undefined probationaryItem then
    (undefined, mkCache protected1 (probationaryLru c))
  else if negb (is_undefined protectedItem) then
    (protectedItem, mkCache protected1 (probationaryLru c))
  else
    let probationary1 := probationary_del key (probationaryLru c) in
    let '(protected2, probationary2) :=
      LRU.set key probationaryItem protected1 probationary1 in
    (probationaryItem, mkCache protected2 probationary2).

(** [peek (key)]: the protected value unless it is [undefined]. *)
Definition peek (key : JsValue) (c : Cache) : JsValue :=
  let protectedItem := LRU.peek key (protectedLru c) in
  let probationaryItem := LRU.peek key (probationaryLru c) in
  if is_undefined protectedItem then probationaryItem else protectedItem.

(** [set (key, value)]: update in the protected store, or promotion with
    update from the probationary store, or insertion into the probationary
    store. *)
Definition set (key value : JsValue) (c : Cache) : Cache :=
  if LRU.has key (protectedLru c) then
    let '(protected1, probationary1) :=
      LRU.set key value (protectedLru c) (probationaryLru c) in
    mkCache protected1 probationary1
  else if LRU.has key (probationaryLru c) then
    let probationary1 := probationary_del key (probationaryLru c) in
    let '(protected1, probationary2) :=
      LRU.set key value (protectedLru c) probationary1 in
    mkCache protected1 probationary2
  else
    mkCache (protectedLru c) (probationary_set key value (probationaryLru c)).

(** [del (key)]: the probationary store, the protected store, and the
    probationary store again. *)
Definition del (key : JsValue) (c : Cache) : Cache :=
  let probationary1 := probationary_del key (probationaryLru c) in
  let '(protected1, probationary2) :=
    LRU.del key (protectedLru c) probationary1 in
  mkCache protected1 (probationary_del key probationary2).

Definition has (key : JsValue) (c : Cache) : bool :=
  LRU.has key (protectedLru c) || LRU.has key (probationaryLru c).

(** [reset ()]: the protected store first. *)
Definition reset (c : Cache) : Cache :=
  let '(protected1, probationary1) :=
    LRU.reset (protectedLru c) (probationaryLru c) in
  mkCache protected1 (probationary_reset probationary1).

Definition forEach {A : Type} (callbackFn : JsValue -> JsValue -> A -> A)
    (c : Cache) (a : A) : A :=
  LRU.forEach callbackFn (probationaryLru c)
    (LRU.forEach callbackFn (protectedLru c) a).

Definition rforEach {A : Type} (callbackFn : JsValue -> JsValue -> A -> A)
    (c : Cache) (a : A) : A :=
  LRU.rforEach callbackFn (probationaryLru c)
    (LRU.rforEach callbackFn (protectedLru c) a).

Definition keys (c : Cache) : list JsValue :=
  LRU.keys (protectedLru c) ++ LRU.keys (probationaryLru c).

Definition values (c : Cache) : list JsValue :=
  LRU.values (protectedLru c) ++ LRU.values (probationaryLru c).

Definition length (c : Cache) : N :=
  (LRU.LENGTH (protectedLru c) + LRU.LENGTH (probationaryLru c))%N.

Definition itemCount (c : Cache) : nat :=
  LRU.itemCount (protectedLru c) + LRU.itemCount (probationaryLru c).

(** The public calls on a cache, and their sequencing. *)
Inductive Call : Type :=
| CallGet (key : JsValue)
| CallPeek (key : JsValue)
| CallHas (key : JsValue)
| CallSet (key value : JsValue)
| CallDel (key : JsValue)
| CallReset.

Definition call (op : Call) (c : Cache) : Cache :=
  match op with
  | CallGet k => snd (get k c)
  | CallPeek _ => c
  | CallHas _ => c
  | CallSet k v => set k v c
  | CallDel k => del k c
  | CallReset => reset c
  end.

(** The state after a sequence of calls, first call first. *)
Definition run (ops : list Call) (c : Cache) : Cache :=
  fold_left (fun c' op => call op c') ops c.

(** *** Invariants of a cache *)

(** The wiring the constructor sets up and no call changes. *)
Definition wired (c : Cache) : Prop :=
  LRU.DISPOSE (protectedLru c) = Some demote /\
  LRU.NO_DISPOSE_ON_SET (protectedLru c) = true /\
  LRU.DISPOSE (probationaryLru c) = None.

(** A store is well formed when no key occurs twice in it. *)
Definition well_formed {W : Type} (s : LRU.LRUCache W) : Prop :=
  NoDup (LRU.keys s).

Definition within_capacity {W : Type} (s : LRU.LRUCache W) : Prop :=
  LRU.exceeds (LRU.LENGTH s) (LRU.MAX s) = false.

(** Every entry carries the weight the store's length calculator gives its
    value. *)
Definition sized {W : Type} (s : LRU.LRUCache W) : Prop :=
  Forall (fun e => LRU.size e = LRU.LENGTH_CALCULATOR s (LRU.value e) (LRU.key e))
         (LRU.LRU_LIST s).

(** No key lives in both segments. *)
Definition exclusive (c : Cache) : Prop :=
  forall k, ~ (LRU.has k (protectedLru c) = true /\
               LRU.has k (probationaryLru c) = true).

Record consistent (c : Cache) : Prop := mkConsistent {
  consistent_wired : wired c;
  consistent_protected : well_formed (protectedLru c);
  consistent_probationary : well_formed (probationaryLru c);
  consistent_exclusive : exclusive c;
  consistent_protected_capacity : within_capacity (protectedLru c);
  consistent_probationary_capacity : within_capacity (probationaryLru c)
}.

(** A cache with the given segment contents, unit weights and the
    constructor's wiring. *)
Definition of_lists (protectedMax probationaryMax : LRU.Capacity)
    (protectedItems probationaryItems : list LRU.Entry) : Cache :=
  mkCache
    (LRU.mkCache protectedMax LRU.naiveLength (Some demote) true protectedItems)
    (LRU.mkCache probationaryMax LRU.naiveLength None false probationaryItems).

(** A callback that records what it is called with, as a [(key, value)]
    pair appended to the list of the visits so far. *)
Definition record_visit (value key : JsValue)
    (seen : list (JsValue * JsValue)) : list (JsValue * JsValue) :=
  seen ++ [(key, value)].

Definition item (e : LRU.Entry) : JsValue * JsValue := (LRU.key e, LRU.value e).

(** The two resets of [reset] in the opposite order, for comparison. *)
Definition reset_probationary_first (c : Cache) : Cache :=
  let probationary1 := probationary_reset (probationaryLru c) in
  let '(protected1, probationary2) := LRU.reset (protectedLru c) probationary1 in
  mkCache protected1 probationary2.

(** [k] is stored with the value [v], in whichever segment holds it. *)
Definition stored (k v : JsValue) (c : Cache) : Prop :=
  (LRU.has k (protectedLru c) = true /\ LRU.peek k (protectedLru c) = v) \/
  (LRU.has k (probationaryLru c) = true /\ LRU.peek k (probationaryLru c) = v).

(** The [(key, value)] pairs a cache holds, protected segment first. *)
Definition items (c : Cache) : list (JsValue * JsValue) :=
  map item (LRU.LRU_LIST (protectedLru c)) ++
  map item (LRU.LRU_LIST (probationaryLru c)).

(** One [set] per pair, in order. *)
Definition insertions (pairs : list (JsValue * JsValue)) : list Call :=
  map (fun p => CallSet (fst p) (snd p)) pairs.

(** Both segments weigh every value 1, and every entry is recorded so. *)
Definition unit_weighted (c : Cache) : Prop :=
  LRU.LENGTH_CALCULATOR (protectedLru c) = LRU.naiveLength /\
  LRU.LENGTH_CALCULATOR (probationaryLru c) = LRU.naiveLength /\
  sized (protectedLru c) /\ sized (probationaryLru c).

(** *** The constructor on every argument JavaScript can pass

    [constructor] above takes the options as the documentation describes
    them.  [construct] follows the same lines of [src/index.js] for the
    arguments that type leaves out, and takes the store's constructor as a
    parameter: what [new LRU(...)] accepts is the store's business. *)

(** [options.protectedOptions]: [null] is an object for [typeof], so line 74
    leaves it as it is. *)
Inductive ProtectedArgument : Type :=
| ProtectedNull
| ProtectedGiven (o : SegmentOptions).

(** The argument of [new SLRU(...)]: a falsy one, which line 64 replaces by
    [{}]; a truthy primitive, which has no properties; or an object with its
    two properties. *)
Inductive Argument : Type :=
| ArgumentMissing
| ArgumentPrimitive
| ArgumentObject (protected : ProtectedArgument) (probationary : SegmentOptions).

(** How a constructor call ends: with a cache, with the error the store's
    constructor threw, or with the [TypeError] of an assignment the class
    body (strict code) cannot make. *)
Inductive Outcome : Type :=
| Built (c : Cache)
| StoreRefused (message : string)
| OwnTypeError.

(** [options.probationaryOptions], as read at line 69. *)
Definition probationary_of (argument : Argument) : SegmentOptions :=
  match argument with
  | ArgumentObject _ q => q
  | _ => NoOptions
  end.


(** What line 69 hands to the store's constructor. *)
Definition store_argument (o : SegmentOptions) : LRU.ConstructorArg unit :=
  match o with
  | NoOptions => LRU.ArgUndefined
  | MaxItems n => LRU.ArgNumber n
  | StoreOptions m l => LRU.ArgObject (LRU.mkOptions m l None false)
  end.

(** What line 87 hands to the store's constructor: the options wrapped by
    line 75 if need be, with the two properties lines 81-84 set. *)
Definition protected_store_options (o : SegmentOptions) : LRU.Options Probationary :=
  LRU.mkOptions (segment_max o)
    (match o with StoreOptions _ l => l | _ => None end)
    (Some demote) true.

Section Construct.
Variable new_store : forall W : Type, LRU.ConstructorArg W -> Result (LRU.LRUCache W).

Definition construct (argument : Argument) : Outcome :=
  match new_store (store_argument (probationary_of argument)) with
  | Throw e => StoreRefused e
  | Ok probationary =>
      match argument with
      | ArgumentPrimitive => OwnTypeError
      | ArgumentObject ProtectedNull _ => OwnTypeError
      | ArgumentMissing =>
          match new_store (LRU.ArgObject (protected_store_options NoOptions)) with
          | Throw e => StoreRefused e
          | Ok protected => Built (mkCache protected probationary)
          end
      | ArgumentObject (ProtectedGiven o) _ =>
          match new_store (LRU.ArgObject (protected_store_options o)) with
          | Throw e => StoreRefused e
          | Ok protected => Built (mkCache protected probationary)
          end
      end
  end.

End Construct.

(** The arguments [constructor] covers. *)
Definition argument_of (options : option Options) : Argument :=
  match options with
  | None => ArgumentMissing
  | Some o => ArgumentObject (ProtectedGiven (protectedOptions o)) (probationaryOptions o)
  end.

(** The store's constructor as modelled in [LRU]. *)
Definition modelled_store (W : Type) (arg : LRU.ConstructorArg W) :
    Result (LRU.LRUCache W) :=
  LRU.constructor arg.

End SLRU.

(** ** Sample configurations and call sequences *)

Module Sample.

(** [new SLRU({ protectedOptions: 2, probationaryOptions: 2 })] *)
Definition options22 : option SLRU.Options :=
  Some (SLRU.mkOptions (SLRU.MaxItems 2) (SLRU.MaxItems 2)).

(** The cache that call returns. *)
Definition cache22 : SLRU.Cache :=
  SLRU.of_lists (LRU.Finite 2) (LRU.Finite 2) [] [].

(** [set(0,'0'); get(0); set(1,'1'); get(1); set(2,'2'); get(2)] *)
Definition cascade : list SLRU.Call :=
  [SLRU.CallSet (JsNum 0) (JsStr "0"); SLRU.CallGet (JsNum 0);
   SLRU.CallSet (JsNum 1) (JsStr "1"); SLRU.CallGet (JsNum 1);
   SLRU.CallSet (JsNum 2) (JsStr "2"); SLRU.CallGet (JsNum 2)].

(** The state the repository's tests call [setupCache()]: keys 0 and 1
    promoted to the protected segment, keys 2 and 3 probationary. *)
Definition setupCache : SLRU.Cache :=
  SLRU.run
    [SLRU.CallSet (JsStr "0") (JsStr "0"); SLRU.CallGet (JsStr "0");
     SLRU.CallSet (JsStr "1") (JsStr "1"); SLRU.CallGet (JsStr "1");
     SLRU.CallSet (JsStr "2") (JsStr "2"); SLRU.CallSet (JsStr "3") (JsStr "3")]
    cache22.

(** [length: v => v.length] on strings, 1 on anything else. *)
Definition byLength (v _ : JsValue) : N :=
  match v with
  | JsStr s => N.of_nat (String.length s)
  | _ => 1%N
  end.

(** [new SLRU({ protectedOptions: { max: 3, length: v => v.length },
                probationaryOptions: 2 })] *)
Definition weighted_options : option SLRU.Options :=
  Some (SLRU.mkOptions (SLRU.StoreOptions (Some 3%Z) (Some byLength))
                       (SLRU.MaxItems 2)).

Definition weighted_cache : SLRU.Cache :=
  SLRU.mkCache
    (LRU.mkCache (LRU.Finite 3) byLength (Some SLRU.demote) true [])
    (LRU.mkCache (LRU.Finite 2) LRU.naiveLength None false []).

(** Keys "a" and "b" promoted, with values of weight 1 each. *)
Definition weighted_ab : SLRU.Cache :=
  SLRU.run
    [SLRU.CallSet (JsStr "a") (JsStr "x"); SLRU.CallGet (JsStr "a");
     SLRU.CallSet (JsStr "b") (JsStr "y"); SLRU.CallGet (JsStr "b")]
    weighted_cache.

(** [new SLRU({ protectedOptions: 0, probationaryOptions: 0 })] *)
Definition options00 : option SLRU.Options :=
  Some (SLRU.mkOptions (SLRU.MaxItems 0) (SLRU.MaxItems 0)).

Definition cache00 : SLRU.Cache :=
  SLRU.of_lists LRU.Infinity LRU.Infinity [] [].


(** A protected store whose [noDisposeOnSet] is off, as the store's
    default would have it. *)
Definition dispose_on_set : SLRU.Cache :=
  SLRU.mkCache
    (LRU.mkCache (LRU.Finite 2) LRU.naiveLength (Some SLRU.demote) false
       [LRU.mkEntry (JsStr "a") (JsStr "x") 1])
    (LRU.mkCache (LRU.Finite 2) LRU.naiveLength None false []).

(** [new SLRU({ protectedOptions: { max: 2, length: () => 2 },
                probationaryOptions: 2 })], as in the repository's tests. *)
Definition heavy_options : option SLRU.Options :=
  Some (SLRU.mkOptions (SLRU.StoreOptions (Some 2%Z) (Some (fun _ _ => 2%N)))
                       (SLRU.MaxItems 2)).

Definition heavy_cache : SLRU.Cache :=
  SLRU.mkCache
    (LRU.mkCache (LRU.Finite 2) (fun _ _ => 2%N) (Some SLRU.demote) true [])
    (LRU.mkCache (LRU.Finite 2) LRU.naiveLength None false []).

(** A protected segment too small for any value: every weight is 2, the
    capacity is 1. *)
Definition tiny_cache : SLRU.Cache :=
  SLRU.mkCache
    (LRU.mkCache (LRU.Finite 1) (fun _ _ => 2%N) (Some SLRU.demote) true [])
    (LRU.mkCache (LRU.Finite 2) LRU.naiveLength None false []).

End Sample.

(** * Facts about values and entry lists *)

Unset Implicit Arguments.

Lemma strict_eq_true (a b : JsValue) : strict_eq a b = true <-> a = b.
Proof.
  destruct a, b; simpl; split; intro H;
    try discriminate; try reflexivity; try congruence.
  - apply Bool.eqb_prop in H. congruence.
  - injection H as ->. apply Bool.eqb_reflx.
  - apply Z.eqb_eq in H. congruence.
  - injection H as ->. apply Z.eqb_refl.
  - apply String.eqb_eq in H. congruence.
  - injection H as ->. apply String.eqb_refl.
Qed.

Lemma strict_eq_refl (a : JsValue) : strict_eq a a = true.
Proof. now apply strict_eq_true. Qed.

Lemma strict_eq_false (a b : JsValue) : strict_eq a b = false <-> a <> b.
Proof.
  split.
  - intros H E. apply strict_eq_true in E. congruence.
  - intros H. destruct (strict_eq a b) eqn:E; [|reflexivity].
    apply strict_eq_true in E. contradiction.
Qed.

Lemma is_undefined_true (v : JsValue) : SLRU.is_undefined v = true <-> v = undefined.
Proof. apply strict_eq_true. Qed.

Lemma find_Some (k : JsValue) (l : list LRU.Entry) (e : LRU.Entry) :
  LRU.find k l = Some e -> LRU.key e = k /\ In e l.
Proof.
  unfold LRU.find. intros H. apply find_some in H as [Hin Heq].
  apply strict_eq_true in Heq. auto.
Qed.

Lemma find_None (k : JsValue) (l : list LRU.Entry) :
  LRU.find k l = None <-> ~ In k (map LRU.key l).
Proof.
  unfold LRU.find. split.
  - intros H Hin. apply in_map_iff in Hin as (e & Hk & He).
    pose proof (find_none _ _ H e He) as Hf. simpl in Hf.
    rewrite Hk, strict_eq_refl in Hf. discriminate.
  - intros H. destruct (List.find _ l) as [e|] eqn:E; [|reflexivity].
    apply find_some in E as [Hin Heq]. apply strict_eq_true in Heq.
    exfalso. apply H. apply in_map_iff. eauto.
Qed.

Lemma find_In (k : JsValue) (l : list LRU.Entry) :
  In k (map LRU.key l) -> exists e, LRU.find k l = Some e.
Proof.
  intros H. destruct (LRU.find k l) as [e|] eqn:E; [eauto|].
  apply find_None in E. contradiction.
Qed.

Lemma has_In {W : Type} (k : JsValue) (c : LRU.LRUCache W) :
  LRU.has k c = true <-> In k (LRU.keys c).
Proof.
  unfold LRU.has, LRU.keys. split.
  - destruct (LRU.find k (LRU.LRU_LIST c)) as [e|] eqn:E; [|discriminate].
    intros _. apply find_Some in E as [<- Hin]. now apply in_map.
  - intros H. apply find_In in H as [e ->]. reflexivity.
Qed.

Lemma has_false {W : Type} (k : JsValue) (c : LRU.LRUCache W) :
  LRU.has k c = false <-> ~ In k (LRU.keys c).
Proof.
  rewrite <- has_In. destruct (LRU.has k c); split; congruence.
Qed.

Lemma remove_keys (k j : JsValue) (l : list LRU.Entry) :
  In j (map LRU.key (LRU.remove k l)) <-> In j (map LRU.key l) /\ j <> k.
Proof.
  unfold LRU.remove. rewrite !in_map_iff. split.
  - intros (e & He & Hin). apply filter_In in Hin as [Hin Hne].
    apply negb_true_iff, strict_eq_false in Hne. split; [eauto | congruence].
  - intros [(e & He & Hin) Hne]. exists e. split; [assumption|].
    apply filter_In. split; [assumption|].
    apply negb_true_iff, strict_eq_false. congruence.
Qed.

Lemma remove_absent (k : JsValue) (l : list LRU.Entry) :
  ~ In k (map LRU.key l) -> LRU.remove k l = l.
Proof.
  induction l as [|e l IH]; simpl; intros H; [reflexivity|].
  destruct (strict_eq (LRU.key e) k) eqn:E; simpl.
  - apply strict_eq_true in E. tauto.
  - f_equal. apply IH. tauto.
Qed.

Lemma remove_NoDup (k : JsValue) (l : list LRU.Entry) :
  NoDup (map LRU.key l) -> NoDup (map LRU.key (LRU.remove k l)).
Proof.
  induction l as [|e l IH]; simpl; intros H; [constructor|].
  inversion H as [|? ? Hnin Hnd]; subst.
  destruct (strict_eq (LRU.key e) k); simpl; [auto|].
  constructor; [|auto].
  intros Hin. apply remove_keys in Hin. tauto.
Qed.

Lemma NoDup_app_disjoint {A : Type} (l1 l2 : list A) (a : A) :
  NoDup (l1 ++ l2) -> In a l1 -> ~ In a l2.
Proof.
  induction l1 as [|x l1 IH]; simpl; intros Hnd Hin; [contradiction|].
  inversion Hnd as [|? ? Hnin Hnd']; subst.
  destruct Hin as [-> | Hin]; [|now apply IH].
  intros H. apply Hnin, in_or_app. now right.
Qed.

Lemma total_app (l1 l2 : list LRU.Entry) :
  LRU.total (l1 ++ l2) = (LRU.total l1 + LRU.total l2)%N.
Proof. induction l1 as [|e l1 IH]; simpl; [reflexivity | rewrite IH; lia]. Qed.

Lemma total_rev (l : list LRU.Entry) : LRU.total (rev l) = LRU.total l.
Proof.
  induction l as [|e l IH]; simpl; [reflexivity|].
  rewrite total_app, IH. simpl. lia.
Qed.

Lemma total_remove (k : JsValue) (l : list LRU.Entry) :
  (LRU.total (LRU.remove k l) <= LRU.total l)%N.
Proof.
  induction l as [|e l IH]; simpl; [lia|].
  destruct (strict_eq (LRU.key e) k); simpl; lia.
Qed.

Lemma exceeds_mono (a b : N) (m : LRU.Capacity) :
  (a <= b)%N -> LRU.exceeds b m = false -> LRU.exceeds a m = false.
Proof.
  destruct m as [|m]; simpl; [reflexivity|].
  rewrite !N.ltb_ge. lia.
Qed.

Lemma exceeds_Finite (n m : N) :
  LRU.exceeds n (LRU.Finite m) = false <-> (n <= m)%N.
Proof. simpl. rewrite N.ltb_ge. tauto. Qed.

Lemma exceeds_zero (m : LRU.Capacity) : LRU.exceeds 0 m = false.
Proof. destruct m; simpl; [reflexivity | apply N.ltb_ge; lia]. Qed.

(** * Facts about the store *)

Section StoreFacts.
Context {W : Type}.
Implicit Types (c : LRU.LRUCache W) (w : W) (k v : JsValue).

Lemma call_dispose_with_list c l hit w :
  LRU.call_dispose (LRU.with_list c l) hit w = LRU.call_dispose c hit w.
Proof. reflexivity. Qed.

Lemma dispose_all_cons c hit gone w :
  LRU.dispose_all c (hit :: gone) w =
  LRU.dispose_all c gone (LRU.call_dispose c hit w).
Proof. reflexivity. Qed.

Lemma dispose_all_with_list c l gone w :
  LRU.dispose_all (LRU.with_list c l) gone w = LRU.dispose_all c gone w.
Proof. reflexivity. Qed.

(** The eviction loop splits the walk into the entries that left, in the
    order they left, and the entries that stay; what stays fits. *)
Lemma evict_split c walker w :
  exists gone,
    walker = gone ++ fst (LRU.evict c walker w) /\
    snd (LRU.evict c walker w) = LRU.dispose_all c gone w /\
    LRU.exceeds (LRU.total (fst (LRU.evict c walker w))) (LRU.MAX c) = false.
Proof.
  revert w. induction walker as [|hit prev IH]; intros w.
  - exists []. simpl. repeat split. apply exceeds_zero.
  - cbn [LRU.evict].
    destruct (LRU.exceeds (LRU.total (hit :: prev)) (LRU.MAX c)) eqn:E.
    + destruct (IH (LRU.call_dispose c hit w)) as (gone & Hsplit & Hw & Hfit).
      exists (hit :: gone). simpl. repeat split; try assumption.
      f_equal. exact Hsplit.
    + exists []. simpl. repeat split. exact E.
Qed.

(** A walk that already fits is left alone. *)
Lemma evict_fits c walker w :
  LRU.exceeds (LRU.total walker) (LRU.MAX c) = false ->
  LRU.evict c walker w = (walker, w).
Proof.
  destruct walker as [|hit prev]; intros H; [reflexivity|].
  cbn [LRU.evict]. now rewrite H.
Qed.

(** An entry that fits on its own is never evicted from the end of the
    walk. *)
Lemma evict_keeps_last c walker hit w :
  LRU.exceeds (LRU.size hit) (LRU.MAX c) = false ->
  exists kept, fst (LRU.evict c (walker ++ [hit]) w) = kept ++ [hit].
Proof.
  intros Hfit. revert w. induction walker as [|e walker IH]; intros w.
  - exists []. cbn [app LRU.evict].
    replace (LRU.total [hit]) with (LRU.size hit) by (simpl; lia).
    now rewrite Hfit.
  - cbn [app LRU.evict].
    destruct (LRU.exceeds (LRU.total (e :: walker ++ [hit])) (LRU.MAX c)).
    + apply IH.
    + exists (e :: walker). reflexivity.
Qed.

Lemma trim_split c w :
  exists gone,
    LRU.LRU_LIST c = LRU.LRU_LIST (fst (LRU.trim c w)) ++ rev gone /\
    fst (LRU.trim c w) = LRU.with_list c (LRU.LRU_LIST (fst (LRU.trim c w))) /\
    snd (LRU.trim c w) = LRU.dispose_all c gone w /\
    LRU.exceeds (LRU.LENGTH (fst (LRU.trim c w))) (LRU.MAX c) = false.
Proof.
  unfold LRU.trim.
  destruct (evict_split c (rev (LRU.LRU_LIST c)) w) as (gone & Hsplit & Hw & Hfit).
  destruct (LRU.evict c (rev (LRU.LRU_LIST c)) w) as [kept w'] eqn:E.
  simpl in *. exists gone. repeat split.
  - rewrite <- (rev_involutive (LRU.LRU_LIST c)), Hsplit, rev_app_distr.
    reflexivity.
  - exact Hw.
  - unfold LRU.LENGTH. simpl. now rewrite total_rev.
Qed.

Lemma trim_fits c w :
  LRU.exceeds (LRU.LENGTH c) (LRU.MAX c) = false ->
  LRU.trim c w = (LRU.with_list c (LRU.LRU_LIST c), w).
Proof.
  intros H. unfold LRU.trim. rewrite evict_fits.
  - now rewrite rev_involutive.
  - now rewrite total_rev.
Qed.

Lemma set_unfold k v c w :
  LRU.set k v c w =
  LRU.trim (LRU.with_list c (LRU.set_list c k v)) (LRU.set_overwrite c k w).
Proof.
  unfold LRU.set, LRU.set_overwrite, LRU.set_list.
  destruct (LRU.find k (LRU.LRU_LIST c)) as [item|] eqn:E; [reflexivity|].
  apply find_None in E. now rewrite (remove_absent _ _ E).
Qed.

Lemma set_list_NoDup c k v :
  NoDup (LRU.keys c) -> NoDup (map LRU.key (LRU.set_list c k v)).
Proof.
  intros H. unfold LRU.set_list. simpl. constructor.
  - intros Hin. apply remove_keys in Hin. tauto.
  - now apply remove_NoDup.
Qed.

Lemma set_list_keys c k v j :
  In j (map LRU.key (LRU.set_list c k v)) <-> j = k \/ (In j (LRU.keys c) /\ j <> k).
Proof.
  unfold LRU.set_list. simpl. rewrite remove_keys. unfold LRU.keys.
  intuition congruence.
Qed.

(** What [set] does, in one statement: the new list splits into what is
    kept and what was evicted, the hook ran over the evicted entries from
    the least recently used on, and the store fits again. *)
Lemma set_split k v c w :
  exists gone,
    LRU.set_list c k v = LRU.LRU_LIST (fst (LRU.set k v c w)) ++ rev gone /\
    fst (LRU.set k v c w) = LRU.with_list c (LRU.LRU_LIST (fst (LRU.set k v c w))) /\
    snd (LRU.set k v c w) = LRU.dispose_all c gone (LRU.set_overwrite c k w) /\
    LRU.exceeds (LRU.LENGTH (fst (LRU.set k v c w))) (LRU.MAX c) = false.
Proof.
  rewrite set_unfold.
  destruct (trim_split (LRU.with_list c (LRU.set_list c k v)) (LRU.set_overwrite c k w))
    as (gone & Hl & Hc & Hw & Hfit).
  exists gone. repeat split; assumption.
Qed.

Lemma get_unfold k c :
  snd (LRU.get k c) = c \/
  exists hit, LRU.find k (LRU.LRU_LIST c) = Some hit /\
    LRU.get k c = (LRU.value hit,
                   LRU.with_list c (hit :: LRU.remove k (LRU.LRU_LIST c))).
Proof.
  unfold LRU.get. destruct (LRU.find k (LRU.LRU_LIST c)) as [hit|]; eauto.
Qed.

Lemma total_find_remove k (l : list LRU.Entry) hit :
  NoDup (map LRU.key l) -> LRU.find k l = Some hit ->
  LRU.total l = (LRU.size hit + LRU.total (LRU.remove k l))%N.
Proof.
  induction l as [|e l IH]; simpl; intros Hnd Hf; [discriminate|].
  inversion Hnd as [|? ? Hnin Hnd']; subst.
  unfold LRU.find in Hf. simpl in Hf.
  destruct (strict_eq (LRU.key e) k) eqn:E; simpl.
  - injection Hf as <-. apply strict_eq_true in E. subst k.
    now rewrite (remove_absent _ _ Hnin).
  - rewrite (IH Hnd' Hf). lia.
Qed.

End StoreFacts.

Section StoreCalls.
Context {W : Type}.
Implicit Types (c : LRU.LRUCache W) (w : W) (k v j : JsValue).

Lemma with_list_self c : LRU.with_list c (LRU.LRU_LIST c) = c.
Proof. now destruct c. Qed.

Lemma set_config k v c w : LRU.config (fst (LRU.set k v c w)) = LRU.config c.
Proof.
  destruct (set_split k v c w) as (gone & _ & Hc & _). now rewrite Hc.
Qed.

Lemma set_keys k v c w j :
  In j (LRU.keys (fst (LRU.set k v c w))) -> j = k \/ In j (LRU.keys c).
Proof.
  destruct (set_split k v c w) as (gone & Hl & _). intros Hin.
  assert (H : In j (map LRU.key (LRU.set_list c k v))).
  { rewrite Hl, map_app. apply in_or_app. now left. }
  apply set_list_keys in H. tauto.
Qed.

Lemma set_NoDup k v c w :
  NoDup (LRU.keys c) -> NoDup (LRU.keys (fst (LRU.set k v c w))).
Proof.
  intros Hnd. destruct (set_split k v c w) as (gone & Hl & _).
  pose proof (set_list_NoDup c k v Hnd) as H.
  rewrite Hl, map_app in H. now apply NoDup_app_remove_r in H.
Qed.

Lemma set_fits k v c w :
  LRU.exceeds (LRU.LENGTH (fst (LRU.set k v c w)))
              (LRU.MAX (fst (LRU.set k v c w))) = false.
Proof.
  destruct (set_split k v c w) as (gone & _ & Hc & _ & Hfit).
  now rewrite Hc in *.
Qed.

Lemma del_list k c w :
  fst (LRU.del k c w) = LRU.with_list c (LRU.remove k (LRU.LRU_LIST c)).
Proof.
  unfold LRU.del. destruct (LRU.find k (LRU.LRU_LIST c)) eqn:E; [reflexivity|].
  apply find_None in E. rewrite (remove_absent _ _ E). simpl.
  symmetry. apply with_list_self.
Qed.

Lemma get_config k c : LRU.config (snd (LRU.get k c)) = LRU.config c.
Proof. destruct (get_unfold k c) as [-> | (hit & _ & ->)]; reflexivity. Qed.

Lemma get_keys k c j :
  In j (LRU.keys (snd (LRU.get k c))) <-> In j (LRU.keys c).
Proof.
  destruct (get_unfold k c) as [-> | (hit & Hf & ->)]; [tauto|].
  apply find_Some in Hf as [Hk Hin]. unfold LRU.keys. simpl.
  rewrite remove_keys. split.
  - intros [<- | [H _]]; [now apply in_map | assumption].
  - intros H. destruct (strict_eq j k) eqn:E.
    + apply strict_eq_true in E. left. congruence.
    + apply strict_eq_false in E. tauto.
Qed.

Lemma get_NoDup k c :
  NoDup (LRU.keys c) -> NoDup (LRU.keys (snd (LRU.get k c))).
Proof.
  intros Hnd. destruct (get_unfold k c) as [-> | (hit & Hf & ->)]; [assumption|].
  apply find_Some in Hf as [Hk Hin]. unfold LRU.keys. simpl.
  constructor.
  - rewrite Hk, remove_keys. tauto.
  - now apply remove_NoDup.
Qed.

Lemma get_LENGTH k c :
  NoDup (LRU.keys c) -> LRU.LENGTH (snd (LRU.get k c)) = LRU.LENGTH c.
Proof.
  intros Hnd. destruct (get_unfold k c) as [-> | (hit & Hf & ->)]; [reflexivity|].
  unfold LRU.LENGTH. simpl. symmetry. now apply total_find_remove.
Qed.

(** A hit is reported with its value and is afterwards the first entry. *)
Lemma get_hit k c :
  LRU.has k c = true ->
  fst (LRU.get k c) = LRU.peek k c /\
  hd_error (LRU.keys (snd (LRU.get k c))) = Some k.
Proof.
  unfold LRU.has, LRU.get, LRU.peek, LRU.keys.
  destruct (LRU.find k (LRU.LRU_LIST c)) as [hit|] eqn:E; [|discriminate].
  apply find_Some in E as [Hk _]. intros _. simpl. now rewrite Hk.
Qed.

Lemma get_miss k c : LRU.has k c = false -> LRU.get k c = (undefined, c).
Proof.
  unfold LRU.has, LRU.get.
  destruct (LRU.find k (LRU.LRU_LIST c)); [discriminate | reflexivity].
Qed.

Lemma peek_miss k c : LRU.has k c = false -> LRU.peek k c = undefined.
Proof.
  unfold LRU.has, LRU.peek.
  destruct (LRU.find k (LRU.LRU_LIST c)); [discriminate | reflexivity].
Qed.

End StoreCalls.

(** * Facts about the segmented cache *)

Lemma probationary_del_list (k : JsValue) (p : SLRU.Probationary) :
  SLRU.probationary_del k p = LRU.with_list p (LRU.remove k (LRU.LRU_LIST p)).
Proof. apply del_list. Qed.

Lemma probationary_del_keys (k j : JsValue) (p : SLRU.Probationary) :
  In j (LRU.keys (SLRU.probationary_del k p)) <-> In j (LRU.keys p) /\ j <> k.
Proof. rewrite probationary_del_list. apply remove_keys. Qed.

Lemma probationary_del_fits (k : JsValue) (p : SLRU.Probationary) :
  SLRU.within_capacity p -> SLRU.within_capacity (SLRU.probationary_del k p).
Proof.
  unfold SLRU.within_capacity. rewrite probationary_del_list.
  apply exceeds_mono, total_remove.
Qed.

Lemma probationary_del_NoDup (k : JsValue) (p : SLRU.Probationary) :
  SLRU.well_formed p -> SLRU.well_formed (SLRU.probationary_del k p).
Proof.
  unfold SLRU.well_formed. rewrite probationary_del_list. apply remove_NoDup.
Qed.

(** Demotion of a run of entries into the probationary segment. *)
Section Demotion.
Variable protected : SLRU.Protected.
Hypothesis hook : LRU.DISPOSE protected = Some SLRU.demote.

Lemma call_dispose_demote (hit : LRU.Entry) (p : SLRU.Probationary) :
  LRU.call_dispose protected hit p =
  SLRU.probationary_set (LRU.key hit) (LRU.value hit) p.
Proof. unfold LRU.call_dispose. now rewrite hook. Qed.

Lemma dispose_all_config (gone : list LRU.Entry) (p : SLRU.Probationary) :
  LRU.config (LRU.dispose_all protected gone p) = LRU.config p.
Proof.
  revert p. induction gone as [|hit gone IH]; intros p; [reflexivity|].
  rewrite dispose_all_cons.
  rewrite IH, call_dispose_demote. apply set_config.
Qed.

Lemma dispose_all_keys (gone : list LRU.Entry) (p : SLRU.Probationary) (j : JsValue) :
  In j (LRU.keys (LRU.dispose_all protected gone p)) ->
  In j (LRU.keys p) \/ In j (map LRU.key gone).
Proof.
  revert p. induction gone as [|hit gone IH]; intros p; [now left|].
  rewrite dispose_all_cons.
  intros H. apply IH in H as [H | H]; [|right; now right].
  rewrite call_dispose_demote in H. apply set_keys in H as [-> | H].
  - right. now left.
  - now left.
Qed.

Lemma dispose_all_NoDup (gone : list LRU.Entry) (p : SLRU.Probationary) :
  SLRU.well_formed p -> SLRU.well_formed (LRU.dispose_all protected gone p).
Proof.
  revert p. induction gone as [|hit gone IH]; intros p Hp; [assumption|].
  rewrite dispose_all_cons.
  apply IH. rewrite call_dispose_demote. now apply set_NoDup.
Qed.

Lemma dispose_all_fits (gone : list LRU.Entry) (p : SLRU.Probationary) :
  SLRU.within_capacity p -> SLRU.within_capacity (LRU.dispose_all protected gone p).
Proof.
  revert p. induction gone as [|hit gone IH]; intros p Hp; [assumption|].
  rewrite dispose_all_cons.
  apply IH. rewrite call_dispose_demote. apply set_fits.
Qed.

End Demotion.

Lemma config_fields {W : Type} (a b : LRU.LRUCache W) :
  LRU.config a = LRU.config b ->
  LRU.MAX a = LRU.MAX b /\ LRU.LENGTH_CALCULATOR a = LRU.LENGTH_CALCULATOR b /\
  LRU.DISPOSE a = LRU.DISPOSE b /\ LRU.NO_DISPOSE_ON_SET a = LRU.NO_DISPOSE_ON_SET b.
Proof. unfold LRU.config. intros H. injection H. auto. Qed.

(** Insertion into the protected segment of a key the probationary segment
    does not hold re-establishes every invariant, whatever was evicted. *)
Lemma protected_set_consistent (k v : JsValue)
    (protected : SLRU.Protected) (probationary : SLRU.Probationary) :
  SLRU.wired (SLRU.mkCache protected probationary) ->
  SLRU.well_formed protected ->
  SLRU.well_formed probationary ->
  SLRU.within_capacity probationary ->
  ~ In k (LRU.keys probationary) ->
  (forall j, In j (LRU.keys protected) -> j <> k -> ~ In j (LRU.keys probationary)) ->
  SLRU.consistent
    (SLRU.mkCache (fst (LRU.set k v protected probationary))
                  (snd (LRU.set k v protected probationary))).
Proof.
  intros (Hd & Hn & Hp) Hwf1 Hwf2 Hcap Hk Hdisj. simpl in Hd, Hn, Hp.
  destruct (set_split k v protected probationary) as (gone & Hl & Hc & Hw & Hfit).
  assert (Hover : LRU.set_overwrite protected k probationary = probationary).
  { unfold LRU.set_overwrite. rewrite Hn. now destruct (LRU.find _ _). }
  rewrite Hover in Hw.
  pose proof (set_list_NoDup protected k v Hwf1) as Hnd.
  rewrite Hl, map_app in Hnd.
  destruct (config_fields _ _ (set_config k v protected probationary))
    as (Hmax & _ & Hd' & Hn').
  destruct (config_fields _ _ (dispose_all_config protected Hd gone probationary))
    as (_ & _ & Hpd & _).
  constructor; simpl.
  - unfold SLRU.wired. simpl. rewrite Hd', Hn', Hw, Hpd. auto.
  - unfold SLRU.well_formed, LRU.keys. now apply NoDup_app_remove_r in Hnd.
  - rewrite Hw. now apply dispose_all_NoDup.
  - intros j [Hj1 Hj2]. apply has_In in Hj1, Hj2.
    rewrite Hw in Hj2. apply (dispose_all_keys protected Hd) in Hj2.
    assert (Hin : In j (map LRU.key (LRU.set_list protected k v))).
    { rewrite Hl, map_app. apply in_or_app. now left. }
    apply set_list_keys in Hin.
    destruct Hj2 as [Hj2 | Hj2].
    + destruct Hin as [-> | [Hin Hne]]; [contradiction|].
      exact (Hdisj j Hin Hne Hj2).
    + rewrite map_rev in Hnd.
      apply (NoDup_app_disjoint _ _ j Hnd Hj1). now apply in_rev in Hj2.
  - unfold SLRU.within_capacity. now rewrite Hmax.
  - rewrite Hw. now apply dispose_all_fits.
Qed.

Lemma wired_config (c c' : SLRU.Cache) :
  LRU.config (SLRU.protectedLru c') = LRU.config (SLRU.protectedLru c) ->
  LRU.config (SLRU.probationaryLru c') = LRU.config (SLRU.probationaryLru c) ->
  SLRU.wired c -> SLRU.wired c'.
Proof.
  intros H1 H2 (Hd & Hn & Hp).
  apply config_fields in H1 as (_ & _ & Hd' & Hn').
  apply config_fields in H2 as (_ & _ & Hp' & _).
  unfold SLRU.wired. rewrite Hd', Hn', Hp'. auto.
Qed.

(** Each public call keeps the cache consistent. *)

Lemma protected_get_consistent (k : JsValue) (c : SLRU.Cache) :
  SLRU.consistent c ->
  SLRU.consistent
    (SLRU.mkCache (snd (LRU.get k (SLRU.protectedLru c))) (SLRU.probationaryLru c)).
Proof.
  intros [Hw Hwf1 Hwf2 Hex Hc1 Hc2].
  pose proof (get_config k (SLRU.protectedLru c)) as Hcfg.
  constructor; simpl; try assumption.
  - apply (wired_config c); [exact Hcfg | reflexivity | exact Hw].
  - now apply get_NoDup.
  - intros j [Hj1 Hj2]. simpl in Hj1, Hj2. apply (Hex j). split; [|assumption].
    apply has_In. apply has_In in Hj1. now apply get_keys in Hj1.
  - unfold SLRU.within_capacity in *.
    apply config_fields in Hcfg as (-> & _). now rewrite get_LENGTH.
Qed.

Lemma promote_consistent (k v : JsValue) (c : SLRU.Cache) :
  SLRU.consistent c ->
  SLRU.consistent
    (SLRU.mkCache
       (fst (LRU.set k v (SLRU.protectedLru c)
               (SLRU.probationary_del k (SLRU.probationaryLru c))))
       (snd (LRU.set k v (SLRU.protectedLru c)
               (SLRU.probationary_del k (SLRU.probationaryLru c))))).
Proof.
  intros [(Hd & Hn & Hp) Hwf1 Hwf2 Hex Hc1 Hc2].
  apply protected_set_consistent.
  - unfold SLRU.wired. simpl. rewrite probationary_del_list. auto.
  - assumption.
  - now apply probationary_del_NoDup.
  - now apply probationary_del_fits.
  - rewrite probationary_del_keys. tauto.
  - intros j Hj _ Hj'. apply probationary_del_keys in Hj' as [Hj' _].
    apply (Hex j). split; now apply has_In.
Qed.

Lemma get_consistent (k : JsValue) (c : SLRU.Cache) :
  SLRU.consistent c -> SLRU.consistent (snd (SLRU.get k c)).
Proof.
  intros Hc. pose proof (protected_get_consistent k c Hc) as Hmid.
  unfold SLRU.get.
  destruct (LRU.get k (SLRU.protectedLru c)) as [item protected1]. simpl in Hmid.
  destruct (SLRU.is_undefined item && _); [exact Hmid|].
  destruct (negb (SLRU.is_undefined item)); [exact Hmid|].
  pose proof (promote_consistent k (LRU.peek k (SLRU.probationaryLru c)) _ Hmid) as H.
  simpl in H.
  destruct (LRU.set k _ protected1 _) as [protected2 probationary2].
  exact H.
Qed.

Lemma set_consistent (k v : JsValue) (c : SLRU.Cache) :
  SLRU.consistent c -> SLRU.consistent (SLRU.set k v c).
Proof.
  intros Hc. unfold SLRU.set.
  destruct (LRU.has k (SLRU.protectedLru c)) eqn:E1.
  - destruct Hc as [Hw Hwf1 Hwf2 Hex Hc1 Hc2].
    pose proof (protected_set_consistent k v) as H.
    specialize (H (SLRU.protectedLru c) (SLRU.probationaryLru c)).
    destruct (LRU.set k v _ _) as [protected1 probationary1].
    apply H; try assumption.
    + intros Hin. apply (Hex k). split; [assumption | now apply has_In].
    + intros j Hj _ Hj'. apply (Hex j). split; now apply has_In.
  - destruct (LRU.has k (SLRU.probationaryLru c)) eqn:E2.
    + pose proof (promote_consistent k v c Hc) as H.
      destruct (LRU.set k v _ _) as [protected1 probationary2]. exact H.
    + destruct Hc as [Hw Hwf1 Hwf2 Hex Hc1 Hc2].
      constructor; simpl; try assumption.
      * apply (wired_config c); [reflexivity | apply set_config | exact Hw].
      * now apply set_NoDup.
      * intros j [Hj1 Hj2]. simpl in Hj1, Hj2.
        apply has_In in Hj2. apply set_keys in Hj2 as [-> | Hj2].
        -- congruence.
        -- apply (Hex j). split; [assumption | now apply has_In].
      * apply set_fits.
Qed.

Lemma del_consistent (k : JsValue) (c : SLRU.Cache) :
  SLRU.consistent c -> SLRU.consistent (SLRU.del k c).
Proof.
  intros [Hw Hwf1 Hwf2 Hex Hc1 Hc2]. pose proof Hw as (Hd & Hn & Hp).
  unfold SLRU.del.
  set (p1 := SLRU.probationary_del k (SLRU.probationaryLru c)).
  pose proof (del_list k (SLRU.protectedLru c) p1) as Hl.
  assert (Hp2 : exists p2, snd (LRU.del k (SLRU.protectedLru c) p1) = p2 /\
            LRU.config p2 = LRU.config p1 /\ SLRU.well_formed p2 /\
            SLRU.within_capacity p2 /\
            (forall j, In j (LRU.keys p2) -> j = k \/ In j (LRU.keys p1))).
  { eexists. split; [reflexivity|]. unfold LRU.del.
    destruct (LRU.find k _) as [hit|] eqn:E; simpl.
    - rewrite (call_dispose_demote _ Hd). apply find_Some in E as [-> _].
      repeat split.
      + apply set_config.
      + apply set_NoDup. now apply probationary_del_NoDup.
      + apply set_fits.
      + intros j. apply set_keys.
    - repeat split.
      + now apply probationary_del_NoDup.
      + now apply probationary_del_fits.
      + auto. }
  destruct Hp2 as (p2 & Hsnd & Hcfg & Hwf & Hfit & Hkeys).
  destruct (LRU.del k (SLRU.protectedLru c) p1) as [protected1 probationary2].
  simpl in Hl, Hsnd. subst protected1 probationary2.
  constructor; simpl.
  - unfold SLRU.wired. simpl. rewrite probationary_del_list. simpl.
    apply config_fields in Hcfg as (_ & _ & -> & _).
    unfold p1. rewrite probationary_del_list. auto.
  - unfold SLRU.well_formed, LRU.keys. simpl. now apply remove_NoDup.
  - now apply probationary_del_NoDup.
  - intros j [Hj1 Hj2]. simpl in Hj1, Hj2. apply has_In in Hj1, Hj2.
    apply probationary_del_keys in Hj2 as [Hj2 Hne].
    apply Hkeys in Hj2 as [-> | Hj2]; [congruence|].
    apply probationary_del_keys in Hj2 as [Hj2 _].
    apply remove_keys in Hj1 as [Hj1 _].
    apply (Hex j). split; now apply has_In.
  - unfold SLRU.within_capacity in *. simpl.
    eapply exceeds_mono; [apply total_remove | exact Hc1].
  - now apply probationary_del_fits.
Qed.

Lemma reset_lists (c : SLRU.Cache) :
  LRU.LRU_LIST (SLRU.protectedLru (SLRU.reset c)) = [] /\
  LRU.LRU_LIST (SLRU.probationaryLru (SLRU.reset c)) = [].
Proof. split; reflexivity. Qed.

Lemma reset_consistent (c : SLRU.Cache) :
  SLRU.consistent c -> SLRU.consistent (SLRU.reset c).
Proof.
  intros [(Hd & Hn & Hp) _ _ _ _ _].
  assert (Hcfg : LRU.config (SLRU.probationaryLru (SLRU.reset c)) =
                 LRU.config (SLRU.probationaryLru c)).
  { unfold SLRU.reset, LRU.reset. simpl.
    change (fold_left _ ?l ?w) with (LRU.dispose_all (SLRU.protectedLru c) l w).
    unfold LRU.config. simpl.
    apply (dispose_all_config _ Hd). }
  constructor.
  - apply (wired_config c); [reflexivity | exact Hcfg | now repeat split].
  - constructor.
  - constructor.
  - intros j [Hj _]. discriminate Hj.
  - apply exceeds_zero.
  - apply exceeds_zero.
Qed.

Lemma constructor_Ok (options : option SLRU.Options) (c : SLRU.Cache) :
  SLRU.constructor options = Ok c ->
  SLRU.wired c /\
  LRU.LRU_LIST (SLRU.protectedLru c) = [] /\
  LRU.LRU_LIST (SLRU.probationaryLru c) = [] /\
  LRU.MAX (SLRU.protectedLru c) =
    LRU.capacity (SLRU.segment_max (SLRU.protectedOptions (SLRU.effective options))) /\
  LRU.MAX (SLRU.probationaryLru c) =
    LRU.capacity (SLRU.segment_max (SLRU.probationaryOptions (SLRU.effective options))).
Proof.
  unfold SLRU.constructor, SLRU.effective.
  destruct options as [[protectedOptions probationaryOptions]|]; simpl.
  - destruct probationaryOptions as [|n|m l], protectedOptions as [|n'|m' l'];
      unfold LRU.constructor; simpl;
      repeat match goal with
             | |- context [if ?b then _ else _] => destruct b
             end;
      intros H; try discriminate H; injection H as <-;
      unfold SLRU.wired; simpl; auto.
  - intros H. injection H as <-. unfold SLRU.wired. simpl. auto.
Qed.

Lemma constructor_consistent (options : option SLRU.Options) (c : SLRU.Cache) :
  SLRU.constructor options = Ok c -> SLRU.consistent c.
Proof.
  intros H. apply constructor_Ok in H as (Hw & H1 & H2 & _).
  constructor; try assumption.
  - unfold SLRU.well_formed, LRU.keys. rewrite H1. constructor.
  - unfold SLRU.well_formed, LRU.keys. rewrite H2. constructor.
  - intros k [Hk _]. unfold LRU.has in Hk. rewrite H1 in Hk. discriminate.
  - unfold SLRU.within_capacity, LRU.LENGTH. rewrite H1. apply exceeds_zero.
  - unfold SLRU.within_capacity, LRU.LENGTH. rewrite H2. apply exceeds_zero.
Qed.

Lemma call_consistent (op : SLRU.Call) (c : SLRU.Cache) :
  SLRU.consistent c -> SLRU.consistent (SLRU.call op c).
Proof.
  destruct op; simpl; intros H; try assumption.
  - now apply get_consistent.
  - now apply set_consistent.
  - now apply del_consistent.
  - now apply reset_consistent.
Qed.

Lemma run_consistent (ops : list SLRU.Call) (c : SLRU.Cache) :
  SLRU.consistent c -> SLRU.consistent (SLRU.run ops c).
Proof.
  revert c. induction ops as [|op ops IH]; intros c H; [assumption|].
  apply IH. now apply call_consistent.
Qed.

(** No call changes what a segment was configured with. *)

Lemma protected_set_world_config (k v : JsValue)
    (protected : SLRU.Protected) (p : SLRU.Probationary) :
  LRU.DISPOSE protected = Some SLRU.demote ->
  LRU.NO_DISPOSE_ON_SET protected = true ->
  LRU.config (snd (LRU.set k v protected p)) = LRU.config p.
Proof.
  intros Hd Hn. destruct (set_split k v protected p) as (gone & _ & _ & -> & _).
  unfold LRU.set_overwrite. rewrite Hn.
  destruct (LRU.find k _); now apply dispose_all_config.
Qed.

Lemma protected_del_world_config (k : JsValue)
    (protected : SLRU.Protected) (p : SLRU.Probationary) :
  LRU.DISPOSE protected = Some SLRU.demote ->
  LRU.config (snd (LRU.del k protected p)) = LRU.config p.
Proof.
  intros Hd. unfold LRU.del. destruct (LRU.find k _); [|reflexivity].
  simpl. rewrite (call_dispose_demote _ Hd). apply set_config.
Qed.

Lemma probationary_del_config (k : JsValue) (p : SLRU.Probationary) :
  LRU.config (SLRU.probationary_del k p) = LRU.config p.
Proof. now rewrite probationary_del_list. Qed.

Lemma get_config_both (k : JsValue) (c : SLRU.Cache) :
  SLRU.wired c ->
  LRU.config (SLRU.protectedLru (snd (SLRU.get k c))) =
    LRU.config (SLRU.protectedLru c) /\
  LRU.config (SLRU.probationaryLru (snd (SLRU.get k c))) =
    LRU.config (SLRU.probationaryLru c).
Proof.
  intros (Hd & Hn & _). unfold SLRU.get.
  pose proof (get_config k (SLRU.protectedLru c)) as Hg.
  destruct (LRU.get k (SLRU.protectedLru c)) as [item protected1]. simpl in Hg.
  destruct (SLRU.is_undefined item && _); [now split|].
  destruct (negb (SLRU.is_undefined item)); [now split|].
  pose proof (config_fields _ _ Hg) as (_ & _ & Hd1 & Hn1).
  rewrite <- Hd1 in Hd. rewrite <- Hn1 in Hn.
  pose proof (set_config k (LRU.peek k (SLRU.probationaryLru c)) protected1
                (SLRU.probationary_del k (SLRU.probationaryLru c))) as H1.
  pose proof (protected_set_world_config k (LRU.peek k (SLRU.probationaryLru c))
                protected1 (SLRU.probationary_del k (SLRU.probationaryLru c)) Hd Hn)
    as H2.
  destruct (LRU.set k _ protected1 _) as [protected2 probationary2].
  simpl in *. rewrite H1, H2, probationary_del_config. now split.
Qed.

Lemma set_config_both (k v : JsValue) (c : SLRU.Cache) :
  SLRU.wired c ->
  LRU.config (SLRU.protectedLru (SLRU.set k v c)) =
    LRU.config (SLRU.protectedLru c) /\
  LRU.config (SLRU.probationaryLru (SLRU.set k v c)) =
    LRU.config (SLRU.probationaryLru c).
Proof.
  intros (Hd & Hn & _). unfold SLRU.set.
  destruct (LRU.has k (SLRU.protectedLru c)).
  - pose proof (set_config k v (SLRU.protectedLru c) (SLRU.probationaryLru c)) as H1.
    pose proof (protected_set_world_config k v _ (SLRU.probationaryLru c) Hd Hn) as H2.
    destruct (LRU.set k v _ _). now split.
  - destruct (LRU.has k (SLRU.probationaryLru c)).
    + pose proof (set_config k v (SLRU.protectedLru c)
                    (SLRU.probationary_del k (SLRU.probationaryLru c))) as H1.
      pose proof (protected_set_world_config k v _
                    (SLRU.probationary_del k (SLRU.probationaryLru c)) Hd Hn) as H2.
      destruct (LRU.set k v _ _). simpl in *.
      rewrite H1, H2, probationary_del_config. now split.
    + simpl. split; [reflexivity | apply set_config].
Qed.

Lemma del_config_both (k : JsValue) (c : SLRU.Cache) :
  SLRU.wired c ->
  LRU.config (SLRU.protectedLru (SLRU.del k c)) =
    LRU.config (SLRU.protectedLru c) /\
  LRU.config (SLRU.probationaryLru (SLRU.del k c)) =
    LRU.config (SLRU.probationaryLru c).
Proof.
  intros (Hd & _). unfold SLRU.del.
  pose proof (del_list k (SLRU.protectedLru c)
                (SLRU.probationary_del k (SLRU.probationaryLru c))) as H1.
  pose proof (protected_del_world_config k (SLRU.protectedLru c)
                (SLRU.probationary_del k (SLRU.probationaryLru c)) Hd) as H2.
  destruct (LRU.del k _ _) as [protected1 probationary2]. simpl in *.
  rewrite probationary_del_config, H2, probationary_del_config, H1. now split.
Qed.

Lemma reset_config_both (c : SLRU.Cache) :
  SLRU.wired c ->
  LRU.config (SLRU.protectedLru (SLRU.reset c)) =
    LRU.config (SLRU.protectedLru c) /\
  LRU.config (SLRU.probationaryLru (SLRU.reset c)) =
    LRU.config (SLRU.probationaryLru c).
Proof.
  intros (Hd & _). split; [reflexivity|].
  unfold SLRU.reset, LRU.reset. simpl.
  change (fold_left _ ?l ?w) with (LRU.dispose_all (SLRU.protectedLru c) l w).
  unfold LRU.config at 1. simpl. apply (dispose_all_config _ Hd).
Qed.

Lemma call_config (op : SLRU.Call) (c : SLRU.Cache) :
  SLRU.wired c ->
  LRU.config (SLRU.protectedLru (SLRU.call op c)) =
    LRU.config (SLRU.protectedLru c) /\
  LRU.config (SLRU.probationaryLru (SLRU.call op c)) =
    LRU.config (SLRU.probationaryLru c).
Proof.
  destruct op; simpl; intros H; try (now split).
  - now apply get_config_both.
  - now apply set_config_both.
  - now apply del_config_both.
  - now apply reset_config_both.
Qed.

Lemma run_config (ops : list SLRU.Call) (c : SLRU.Cache) :
  SLRU.consistent c ->
  LRU.config (SLRU.protectedLru (SLRU.run ops c)) =
    LRU.config (SLRU.protectedLru c) /\
  LRU.config (SLRU.probationaryLru (SLRU.run ops c)) =
    LRU.config (SLRU.probationaryLru c).
Proof.
  revert c. induction ops as [|op ops IH]; intros c H; [now split|].
  simpl. destruct (IH _ (call_consistent op c H)) as [-> ->].
  apply call_config, H.
Qed.

(** * The invariants of the cache *)

(** C1 (mutual exclusion).  For every cache the constructor returns and every
    sequence of public calls on it, after each call of the sequence has
    returned no key is present in both the protected and the probationary
    segment. *)
Theorem mutual_exclusion (options : option SLRU.Options) (c0 : SLRU.Cache)
    (ops : list SLRU.Call) (n : nat) :
  SLRU.constructor options = Ok c0 ->
  SLRU.exclusive (SLRU.run (firstn n ops) c0).
Proof.
  intros H. apply run_consistent. now apply constructor_consistent in H.
Qed.

Lemma mutual_exclusion_witness :
  SLRU.constructor Sample.options22 = Ok Sample.cache22 /\
  SLRU.exclusive (SLRU.run (firstn 6 Sample.cascade) Sample.cache22).
Proof.
  split; [reflexivity|].
  apply (mutual_exclusion Sample.options22 Sample.cache22 Sample.cascade 6).
  reflexivity.
Defined.

(** C2 (capacity).  For every cache the constructor returns and every
    sequence of public calls on it, after each call of the sequence has
    returned the cumulative weighted size of each segment does not exceed
    the capacity the segment was configured with. *)
Theorem capacity_invariant (options : option SLRU.Options) (c0 : SLRU.Cache)
    (ops : list SLRU.Call) (n : nat) :
  SLRU.constructor options = Ok c0 ->
  LRU.exceeds
    (LRU.LENGTH (SLRU.protectedLru (SLRU.run (firstn n ops) c0)))
    (LRU.capacity (SLRU.segment_max (SLRU.protectedOptions (SLRU.effective options))))
    = false /\
  LRU.exceeds
    (LRU.LENGTH (SLRU.probationaryLru (SLRU.run (firstn n ops) c0)))
    (LRU.capacity (SLRU.segment_max (SLRU.probationaryOptions (SLRU.effective options))))
    = false.
Proof.
  intros H. pose proof (constructor_Ok _ _ H) as (_ & _ & _ & <- & <-).
  apply constructor_consistent in H.
  destruct (run_config (firstn n ops) c0 H) as [H1 H2].
  apply config_fields in H1 as (<- & _). apply config_fields in H2 as (<- & _).
  pose proof (run_consistent (firstn n ops) c0 H) as [_ _ _ _ Hc1 Hc2].
  split; assumption.
Qed.

Lemma capacity_invariant_witness :
  SLRU.constructor Sample.options22 = Ok Sample.cache22 /\
  LRU.exceeds
    (LRU.LENGTH (SLRU.protectedLru (SLRU.run (firstn 6 Sample.cascade) Sample.cache22)))
    (LRU.Finite 2) = false /\
  LRU.exceeds
    (LRU.LENGTH (SLRU.probationaryLru (SLRU.run (firstn 6 Sample.cascade) Sample.cache22)))
    (LRU.Finite 2) = false.
Proof.
  split; [reflexivity|].
  apply (capacity_invariant Sample.options22 Sample.cache22 Sample.cascade 6).
  reflexivity.
Defined.

(** * Promotion *)

Section Promotion.
Context {W : Type}.
Implicit Types (c : LRU.LRUCache W) (w : W) (k v : JsValue).

(** An entry that fits on its own survives the eviction loop when it is
    the last one the walker would reach. *)
Lemma evict_last c walker hit w :
  LRU.exceeds (LRU.size hit) (LRU.MAX c) = false ->
  exists gone kept,
    walker = gone ++ kept /\
    LRU.evict c (walker ++ [hit]) w = (kept ++ [hit], LRU.dispose_all c gone w).
Proof.
  intros Hfit. revert w. induction walker as [|e walker IH]; intros w.
  - exists [], []. split; [reflexivity|]. cbn [app LRU.evict].
    replace (LRU.total [hit]) with (LRU.size hit) by (simpl; lia).
    now rewrite Hfit.
  - cbn [app LRU.evict].
    destruct (LRU.exceeds (LRU.total (e :: walker ++ [hit])) (LRU.MAX c)).
    + destruct (IH (LRU.call_dispose c e w)) as (gone & kept & -> & ->).
      exists (e :: gone), kept. split; reflexivity.
    + exists [], (e :: walker). split; reflexivity.
Qed.

Lemma trim_head c e l w :
  LRU.LRU_LIST c = e :: l ->
  LRU.exceeds (LRU.size e) (LRU.MAX c) = false ->
  exists gone kept,
    l = kept ++ rev gone /\
    LRU.trim c w = (LRU.with_list c (e :: kept), LRU.dispose_all c gone w).
Proof.
  intros Hl Hfit. unfold LRU.trim. rewrite Hl. cbn [rev].
  destruct (evict_last c (rev l) e w Hfit) as (gone & kept & Hs & ->).
  exists gone, (rev kept). split.
  - rewrite <- (rev_involutive l), Hs, rev_app_distr. reflexivity.
  - rewrite rev_app_distr. reflexivity.
Qed.

(** A value that fits the capacity on its own ends up as the most recently
    used entry of the store; the entries evicted to make room come from
    the least recently used end. *)
Lemma set_head k v c w :
  LRU.exceeds (LRU.LENGTH_CALCULATOR c v k) (LRU.MAX c) = false ->
  exists gone kept,
    LRU.remove k (LRU.LRU_LIST c) = kept ++ rev gone /\
    LRU.set k v c w =
      (LRU.with_list c (LRU.mkEntry k v (LRU.LENGTH_CALCULATOR c v k) :: kept),
       LRU.dispose_all c gone (LRU.set_overwrite c k w)).
Proof.
  intros Hfit. rewrite set_unfold.
  destruct (trim_head (LRU.with_list c (LRU.set_list c k v))
              (LRU.mkEntry k v (LRU.LENGTH_CALCULATOR c v k))
              (LRU.remove k (LRU.LRU_LIST c)) (LRU.set_overwrite c k w)
              eq_refl Hfit) as (gone & kept & Hs & Ht).
  exists gone, kept. split; [exact Hs | exact Ht].
Qed.

Lemma has_head k v n l c :
  LRU.has k (LRU.with_list c (LRU.mkEntry k v n :: l)) = true /\
  LRU.peek k (LRU.with_list c (LRU.mkEntry k v n :: l)) = v.
Proof.
  unfold LRU.has, LRU.peek, LRU.find. simpl. now rewrite strict_eq_refl.
Qed.

End Promotion.

(** C3 (promotion), as amended.  For every key [k] present in the
    probationary segment and absent from the protected one, whose value [v]
    is not [undefined] and whose weight fits the protected capacity,
    [get(k)] returns [v], removes [k] from the probationary segment and
    makes it the most recently used entry of the protected segment;
    afterwards [k] is found, with its value, in the protected segment and
    not in the probationary one. *)
Theorem get_promotes (k v : JsValue) (c : SLRU.Cache) :
  SLRU.wired c ->
  LRU.has k (SLRU.protectedLru c) = false ->
  LRU.has k (SLRU.probationaryLru c) = true ->
  LRU.peek k (SLRU.probationaryLru c) = v ->
  v <> undefined ->
  LRU.exceeds (LRU.LENGTH_CALCULATOR (SLRU.protectedLru c) v k)
              (LRU.MAX (SLRU.protectedLru c)) = false ->
  fst (SLRU.get k c) = v /\
  hd_error (LRU.keys (SLRU.protectedLru (snd (SLRU.get k c)))) = Some k /\
  LRU.has k (SLRU.protectedLru (snd (SLRU.get k c))) = true /\
  LRU.peek k (SLRU.protectedLru (snd (SLRU.get k c))) = v /\
  LRU.has k (SLRU.probationaryLru (snd (SLRU.get k c))) = false /\
  SLRU.peek k (snd (SLRU.get k c)) = v.
Proof.
  intros (Hd & Hn & Hp) Hprot _ Hpeek Hv Hfit.
  assert (Hu : SLRU.is_undefined v = false) by now apply strict_eq_false.
  unfold SLRU.get. rewrite (get_miss k _ Hprot), Hpeek, Hu.
  change (SLRU.is_undefined undefined) with true. cbn [andb negb].
  destruct (set_head k v (SLRU.protectedLru c)
              (SLRU.probationary_del k (SLRU.probationaryLru c)) Hfit)
    as (gone & kept & Hs & ->).
  cbn [fst snd SLRU.protectedLru SLRU.probationaryLru].
  destruct (has_head k v (LRU.LENGTH_CALCULATOR (SLRU.protectedLru c) v k) kept
              (SLRU.protectedLru c)) as [Hhas Hpk].
  assert (Hgone : LRU.has k
            (LRU.dispose_all (SLRU.protectedLru c) gone
               (LRU.set_overwrite (SLRU.protectedLru c) k
                  (SLRU.probationary_del k (SLRU.probationaryLru c)))) = false).
  { apply has_false. intros Hin.
    unfold LRU.set_overwrite in Hin. rewrite Hn in Hin.
    assert (Hin' : In k (LRU.keys (LRU.dispose_all (SLRU.protectedLru c) gone
                      (SLRU.probationary_del k (SLRU.probationaryLru c))))).
    { destruct (LRU.find k _); exact Hin. }
    apply (dispose_all_keys _ Hd) in Hin' as [Hin' | Hin'].
    - apply probationary_del_keys in Hin'. tauto.
    - assert (H : In k (map LRU.key (LRU.remove k (LRU.LRU_LIST (SLRU.protectedLru c))))).
      { rewrite Hs, map_app, map_rev. apply in_or_app. right. now apply in_rev in Hin'. }
      apply remove_keys in H. tauto. }
  split; [reflexivity|]. split; [reflexivity|].
  split; [exact Hhas|]. split; [exact Hpk|]. split; [exact Hgone|].
  unfold SLRU.peek. cbv zeta. cbn [fst snd SLRU.protectedLru SLRU.probationaryLru].
  now rewrite Hpk, Hu.
Qed.

Lemma get_promotes_witness :
  let c := SLRU.set (JsNum 0) (JsStr "0") Sample.cache22 in
  fst (SLRU.get (JsNum 0) c) = JsStr "0" /\
  hd_error (LRU.keys (SLRU.protectedLru (snd (SLRU.get (JsNum 0) c)))) = Some (JsNum 0) /\
  LRU.has (JsNum 0) (SLRU.protectedLru (snd (SLRU.get (JsNum 0) c))) = true /\
  LRU.peek (JsNum 0) (SLRU.protectedLru (snd (SLRU.get (JsNum 0) c))) = JsStr "0" /\
  LRU.has (JsNum 0) (SLRU.probationaryLru (snd (SLRU.get (JsNum 0) c))) = false /\
  SLRU.peek (JsNum 0) (snd (SLRU.get (JsNum 0) c)) = JsStr "0".
Proof.
  apply (get_promotes (JsNum 0) (JsStr "0")
           (SLRU.set (JsNum 0) (JsStr "0") Sample.cache22)).
  - repeat split.
  - reflexivity.
  - reflexivity.
  - reflexivity.
  - discriminate.
  - reflexivity.
Defined.

(** C3 as stated fails for a key stored with the value [undefined]: the key
    is in the probationary segment only, and [get] leaves it there. *)
Lemma get_promotes_not_undefined :
  let c := SLRU.set (JsStr "a") undefined Sample.cache22 in
  SLRU.consistent c /\
  LRU.has (JsStr "a") (SLRU.probationaryLru c) = true /\
  LRU.has (JsStr "a") (SLRU.protectedLru c) = false /\
  fst (SLRU.get (JsStr "a") c) = LRU.peek (JsStr "a") (SLRU.probationaryLru c) /\
  LRU.has (JsStr "a") (SLRU.protectedLru (snd (SLRU.get (JsStr "a") c))) = false /\
  LRU.has (JsStr "a") (SLRU.probationaryLru (snd (SLRU.get (JsStr "a") c))) = true.
Proof.
  split; [|repeat split].
  apply set_consistent.
  apply (constructor_consistent Sample.options22). reflexivity.
Qed.

(** * Deletion and reset *)

Lemma probationary_del_has (k : JsValue) (p : SLRU.Probationary) :
  LRU.has k (SLRU.probationary_del k p) = false.
Proof. apply has_false. rewrite probationary_del_keys. tauto. Qed.

(** C4 (delete).  For every key [k] and every cache state, [del(k)] deletes
    [k] from the probationary segment, then from the protected segment
    (whose hook acts on the probationary segment), then from the
    probationary segment again; afterwards [has(k)] is false and [k] is in
    neither segment. *)
Theorem del_purges (k : JsValue) (c : SLRU.Cache) :
  SLRU.del k c =
    SLRU.mkCache
      (fst (LRU.del k (SLRU.protectedLru c)
              (SLRU.probationary_del k (SLRU.probationaryLru c))))
      (SLRU.probationary_del k
         (snd (LRU.del k (SLRU.protectedLru c)
                 (SLRU.probationary_del k (SLRU.probationaryLru c))))) /\
  SLRU.has k (SLRU.del k c) = false /\
  LRU.has k (SLRU.protectedLru (SLRU.del k c)) = false /\
  LRU.has k (SLRU.probationaryLru (SLRU.del k c)) = false.
Proof.
  assert (E : SLRU.del k c =
    SLRU.mkCache
      (fst (LRU.del k (SLRU.protectedLru c)
              (SLRU.probationary_del k (SLRU.probationaryLru c))))
      (SLRU.probationary_del k
         (snd (LRU.del k (SLRU.protectedLru c)
                 (SLRU.probationary_del k (SLRU.probationaryLru c)))))).
  { unfold SLRU.del. now destruct (LRU.del k _ _). }
  assert (H1 : LRU.has k (SLRU.protectedLru (SLRU.del k c)) = false).
  { rewrite E. cbn [SLRU.protectedLru]. rewrite del_list.
    apply has_false. unfold LRU.keys. cbn [LRU.with_list LRU.LRU_LIST].
    rewrite remove_keys. tauto. }
  assert (H2 : LRU.has k (SLRU.probationaryLru (SLRU.del k c)) = false).
  { rewrite E. cbn [SLRU.probationaryLru]. apply probationary_del_has. }
  repeat split; try assumption.
  unfold SLRU.has. now rewrite H1, H2.
Qed.

(** The hook does put a key deleted from the protected segment back into
    the probationary one: without the last deletion the key would stay. *)
Lemma del_hook_reinserts (k : JsValue) (c : SLRU.Cache) :
  SLRU.wired c ->
  LRU.has k (SLRU.protectedLru c) = true ->
  snd (LRU.del k (SLRU.protectedLru c)
         (SLRU.probationary_del k (SLRU.probationaryLru c))) =
  SLRU.probationary_set k (LRU.peek k (SLRU.protectedLru c))
    (SLRU.probationary_del k (SLRU.probationaryLru c)).
Proof.
  intros (Hd & _) Hhas. unfold LRU.has in Hhas. unfold LRU.del, LRU.peek.
  destruct (LRU.find k _) as [hit|] eqn:E; [|discriminate].
  apply find_Some in E as [<- _]. cbn [snd].
  now rewrite (call_dispose_demote _ Hd).
Qed.

Example del_second_deletion_needed :
  LRU.has (JsStr "0") (SLRU.protectedLru Sample.setupCache) = true /\
  LRU.has (JsStr "0")
    (snd (LRU.del (JsStr "0") (SLRU.protectedLru Sample.setupCache)
            (SLRU.probationary_del (JsStr "0")
               (SLRU.probationaryLru Sample.setupCache)))) = true /\
  SLRU.has (JsStr "0") (SLRU.del (JsStr "0") Sample.setupCache) = false.
Proof. repeat split. Qed.

(** C5 (reset).  [reset()] resets the protected segment, whose hook fills
    the probationary segment, and then the probationary segment; for every
    cache state it leaves both segments empty: the count and the size are 0
    and [has(k)] is false for every key. *)
Theorem reset_empties (c : SLRU.Cache) :
  SLRU.reset c =
    SLRU.mkCache
      (fst (LRU.reset (SLRU.protectedLru c) (SLRU.probationaryLru c)))
      (SLRU.probationary_reset
         (snd (LRU.reset (SLRU.protectedLru c) (SLRU.probationaryLru c)))) /\
  LRU.LRU_LIST (SLRU.protectedLru (SLRU.reset c)) = [] /\
  LRU.LRU_LIST (SLRU.probationaryLru (SLRU.reset c)) = [] /\
  SLRU.itemCount (SLRU.reset c) = 0 /\
  SLRU.length (SLRU.reset c) = 0%N /\
  SLRU.keys (SLRU.reset c) = [] /\
  forall k, SLRU.has k (SLRU.reset c) = false.
Proof. repeat split. Qed.

(** While [reset] runs, the protected segment's entries do reach the
    probationary segment: after the first of the two resets they are there,
    and in the opposite order of resets they would stay. *)
Example reset_repopulates :
  LRU.keys (SLRU.protectedLru Sample.setupCache) = [JsStr "1"; JsStr "0"] /\
  LRU.keys (SLRU.probationaryLru Sample.setupCache) = [JsStr "3"; JsStr "2"] /\
  LRU.keys (snd (LRU.reset (SLRU.protectedLru Sample.setupCache)
                   (SLRU.probationaryLru Sample.setupCache)))
    = [JsStr "0"; JsStr "1"] /\
  SLRU.itemCount (SLRU.reset Sample.setupCache) = 0 /\
  SLRU.keys (SLRU.reset_probationary_first Sample.setupCache)
    = [JsStr "0"; JsStr "1"].
Proof. repeat split. Qed.

(** * The demotion cascade *)

(** C6 (cascade).  On a fresh cache with both capacities 2, the calls
    [set(0,'0'); get(0); set(1,'1'); get(1); set(2,'2'); get(2)] leave key 0
    in the probationary segment, with its value, and keys 1 and 2 in the
    protected segment. *)
Theorem cascade_demotes :
  SLRU.constructor Sample.options22 = Ok Sample.cache22 /\
  LRU.keys (SLRU.protectedLru (SLRU.run Sample.cascade Sample.cache22))
    = [JsNum 2; JsNum 1] /\
  LRU.values (SLRU.protectedLru (SLRU.run Sample.cascade Sample.cache22))
    = [JsStr "2"; JsStr "1"] /\
  LRU.keys (SLRU.probationaryLru (SLRU.run Sample.cascade Sample.cache22))
    = [JsNum 0] /\
  LRU.peek (JsNum 0) (SLRU.probationaryLru (SLRU.run Sample.cascade Sample.cache22))
    = JsStr "0" /\
  LRU.has (JsNum 0) (SLRU.protectedLru (SLRU.run Sample.cascade Sample.cache22))
    = false /\
  SLRU.peek (JsNum 0) (SLRU.run Sample.cascade Sample.cache22) = JsStr "0".
Proof. repeat split. Qed.

(** * Update in place *)

Lemma protected_update_fits (k v : JsValue) (c : SLRU.Cache) :
  LRU.NO_DISPOSE_ON_SET (SLRU.protectedLru c) = true ->
  LRU.has k (SLRU.protectedLru c) = true ->
  LRU.exceeds (LRU.total (LRU.set_list (SLRU.protectedLru c) k v))
              (LRU.MAX (SLRU.protectedLru c)) = false ->
  SLRU.set k v c =
    SLRU.mkCache
      (LRU.with_list (SLRU.protectedLru c) (LRU.set_list (SLRU.protectedLru c) k v))
      (SLRU.probationaryLru c).
Proof.
  intros Hn Hhas Hfit. unfold SLRU.set. rewrite Hhas, set_unfold.
  rewrite trim_fits by exact Hfit.
  unfold LRU.set_overwrite. rewrite Hn.
  destruct (LRU.find k _); reflexivity.
Qed.

(** C7 (update in place), as amended.  For every key [k] already present in
    the protected segment and every value [v] whose weight does not exceed
    the protected capacity, [set(k, v)] replaces [k]'s value in place, makes
    [k] the most recently used entry and does not hand the overwritten value
    to the hook: the hook is called only for other entries, the ones evicted
    from the least recently used end to bring the segment back within its
    capacity.  When the segment with the new value is within its capacity,
    nothing is demoted and the probationary segment is unchanged. *)
Theorem set_protected_in_place (k v : JsValue) (c : SLRU.Cache) :
  SLRU.wired c ->
  LRU.has k (SLRU.protectedLru c) = true ->
  LRU.exceeds (LRU.LENGTH_CALCULATOR (SLRU.protectedLru c) v k)
              (LRU.MAX (SLRU.protectedLru c)) = false ->
  (exists kept gone,
     LRU.remove k (LRU.LRU_LIST (SLRU.protectedLru c)) = kept ++ rev gone /\
     (forall g, In g gone -> LRU.key g <> k) /\
     SLRU.protectedLru (SLRU.set k v c) =
       LRU.with_list (SLRU.protectedLru c)
         (LRU.mkEntry k v (LRU.LENGTH_CALCULATOR (SLRU.protectedLru c) v k) :: kept) /\
     SLRU.probationaryLru (SLRU.set k v c) =
       LRU.dispose_all (SLRU.protectedLru c) gone (SLRU.probationaryLru c)) /\
  (LRU.exceeds (LRU.total (LRU.set_list (SLRU.protectedLru c) k v))
               (LRU.MAX (SLRU.protectedLru c)) = false ->
   SLRU.set k v c =
     SLRU.mkCache
       (LRU.with_list (SLRU.protectedLru c) (LRU.set_list (SLRU.protectedLru c) k v))
       (SLRU.probationaryLru c)).
Proof.
  intros (_ & Hn & _) Hhas Hfit. split.
  - destruct (set_head k v (SLRU.protectedLru c) (SLRU.probationaryLru c) Hfit)
      as (gone & kept & Hs & Hset).
    exists kept, gone. split; [exact Hs|]. split.
    + intros g Hg Hk.
      assert (H : In k (map LRU.key (LRU.remove k (LRU.LRU_LIST (SLRU.protectedLru c))))).
      { rewrite Hs, map_app, map_rev. apply in_or_app. right.
        apply -> in_rev. rewrite <- Hk. now apply in_map. }
      apply remove_keys in H. tauto.
    + assert (Hover : LRU.set_overwrite (SLRU.protectedLru c) k (SLRU.probationaryLru c)
                      = SLRU.probationaryLru c).
      { unfold LRU.set_overwrite. rewrite Hn. now destruct (LRU.find k _). }
      unfold SLRU.set. rewrite Hhas, Hset, Hover. split; reflexivity.
  - intros Hwhole. now apply protected_update_fits.
Qed.

Lemma set_protected_in_place_witness :
  let c := Sample.weighted_ab in
  let k := JsStr "a" in
  let v := JsStr "xxx" in
  (exists kept gone,
     LRU.remove k (LRU.LRU_LIST (SLRU.protectedLru c)) = kept ++ rev gone /\
     (forall g, In g gone -> LRU.key g <> k) /\
     SLRU.protectedLru (SLRU.set k v c) =
       LRU.with_list (SLRU.protectedLru c)
         (LRU.mkEntry k v (LRU.LENGTH_CALCULATOR (SLRU.protectedLru c) v k) :: kept) /\
     SLRU.probationaryLru (SLRU.set k v c) =
       LRU.dispose_all (SLRU.protectedLru c) gone (SLRU.probationaryLru c)) /\
  (LRU.exceeds (LRU.total (LRU.set_list (SLRU.protectedLru c) k v))
               (LRU.MAX (SLRU.protectedLru c)) = false ->
   SLRU.set k v c =
     SLRU.mkCache
       (LRU.with_list (SLRU.protectedLru c) (LRU.set_list (SLRU.protectedLru c) k v))
       (SLRU.probationaryLru c)).
Proof.
  apply (set_protected_in_place (JsStr "a") (JsStr "xxx") Sample.weighted_ab).
  - repeat split.
  - reflexivity.
  - reflexivity.
Defined.

(** The case without eviction, on the repository's own update test. *)
Example update_within_capacity :
  SLRU.set (JsStr "0") (JsStr "00") Sample.setupCache =
    SLRU.mkCache
      (LRU.with_list (SLRU.protectedLru Sample.setupCache)
         (LRU.set_list (SLRU.protectedLru Sample.setupCache) (JsStr "0") (JsStr "00")))
      (SLRU.probationaryLru Sample.setupCache).
Proof. reflexivity. Qed.

(** A value heavier than the whole protected capacity does not stay in the
    protected segment: after the update the key is probationary only. *)
Example oversized_update_leaves_protected :
  LRU.has (JsStr "a") (SLRU.protectedLru Sample.weighted_ab) = true /\
  LRU.has (JsStr "a")
    (SLRU.protectedLru (SLRU.set (JsStr "a") (JsStr "xxxx") Sample.weighted_ab)) = false /\
  LRU.has (JsStr "a")
    (SLRU.probationaryLru (SLRU.set (JsStr "a") (JsStr "xxxx") Sample.weighted_ab)) = true.
Proof. repeat split. Qed.

(** In a consistent cache the condition holds whenever the new value weighs
    no more than the entry it replaces. *)
Corollary set_protected_no_heavier (k v : JsValue) (c : SLRU.Cache) (old : LRU.Entry) :
  SLRU.consistent c ->
  LRU.find k (LRU.LRU_LIST (SLRU.protectedLru c)) = Some old ->
  (LRU.LENGTH_CALCULATOR (SLRU.protectedLru c) v k <= LRU.size old)%N ->
  SLRU.probationaryLru (SLRU.set k v c) = SLRU.probationaryLru c /\
  LRU.LRU_LIST (SLRU.protectedLru (SLRU.set k v c)) =
    LRU.set_list (SLRU.protectedLru c) k v.
Proof.
  intros [(_ & Hn & _) Hwf _ _ Hcap _] Hfind Hle.
  rewrite protected_update_fits; [split; reflexivity | exact Hn | |].
  - unfold LRU.has. now rewrite Hfind.
  - unfold SLRU.within_capacity, LRU.LENGTH in Hcap.
    apply (exceeds_mono _ (LRU.total (LRU.LRU_LIST (SLRU.protectedLru c))));
      [|exact Hcap].
    rewrite (total_find_remove k _ old Hwf Hfind).
    unfold LRU.set_list. simpl. lia.
Qed.

(** C7 as stated fails when the new value is heavier: the update pushes the
    protected segment over its capacity and its least recently used entry is
    demoted into the probationary segment. *)
Lemma set_protected_heavier_demotes :
  SLRU.constructor Sample.weighted_options = Ok Sample.weighted_cache /\
  LRU.has (JsStr "a") (SLRU.protectedLru Sample.weighted_ab) = true /\
  LRU.keys (SLRU.protectedLru Sample.weighted_ab) = [JsStr "b"; JsStr "a"] /\
  LRU.keys (SLRU.probationaryLru Sample.weighted_ab) = [] /\
  LRU.keys (SLRU.protectedLru (SLRU.set (JsStr "a") (JsStr "xxx") Sample.weighted_ab))
    = [JsStr "a"] /\
  LRU.keys (SLRU.probationaryLru (SLRU.set (JsStr "a") (JsStr "xxx") Sample.weighted_ab))
    = [JsStr "b"].
Proof. repeat split. Qed.

(** What [noDisposeOnSet] is for: with the flag off, the overwritten value
    of a protected key is handed to the hook and the key ends up in both
    segments. *)
Example noDisposeOnSet_needed :
  LRU.keys (SLRU.protectedLru (SLRU.set (JsStr "a") (JsStr "y") Sample.dispose_on_set))
    = [JsStr "a"] /\
  LRU.keys (SLRU.probationaryLru (SLRU.set (JsStr "a") (JsStr "y") Sample.dispose_on_set))
    = [JsStr "a"].
Proof. split; reflexivity. Qed.

(** * Recorded weights *)

Section Sized.
Context {W : Type}.
Implicit Types (c : LRU.LRUCache W) (w : W) (k v : JsValue).

Lemma sized_remove k c :
  SLRU.sized c -> SLRU.sized (LRU.with_list c (LRU.remove k (LRU.LRU_LIST c))).
Proof.
  unfold SLRU.sized. cbn [LRU.with_list LRU.LRU_LIST LRU.LENGTH_CALCULATOR].
  rewrite !Forall_forall. intros H e He. apply H.
  unfold LRU.remove in He. now apply filter_In in He.
Qed.

Lemma get_sized k c : SLRU.sized c -> SLRU.sized (snd (LRU.get k c)).
Proof.
  intros H. destruct (get_unfold k c) as [-> | (hit & Hf & ->)]; [assumption|].
  apply find_Some in Hf as [_ Hin]. unfold SLRU.sized in *.
  cbn [snd LRU.with_list LRU.LRU_LIST LRU.LENGTH_CALCULATOR].
  constructor.
  - rewrite Forall_forall in H. now apply H.
  - apply (sized_remove k c H).
Qed.

Lemma del_sized k c w : SLRU.sized c -> SLRU.sized (fst (LRU.del k c w)).
Proof. rewrite del_list. apply sized_remove. Qed.

Lemma set_sized k v c w : SLRU.sized c -> SLRU.sized (fst (LRU.set k v c w)).
Proof.
  intros H. destruct (set_split k v c w) as (gone & Hl & Hc & _).
  assert (Hall : Forall (fun e => LRU.size e =
                   LRU.LENGTH_CALCULATOR c (LRU.value e) (LRU.key e))
                   (LRU.set_list c k v)).
  { unfold LRU.set_list. constructor; [reflexivity|]. apply (sized_remove k c H). }
  rewrite Hl in Hall. apply Forall_app in Hall as [Hkept _].
  rewrite Hc. exact Hkept.
Qed.

End Sized.

Lemma dispose_all_sized (protected : SLRU.Protected) (gone : list LRU.Entry)
    (p : SLRU.Probationary) :
  LRU.DISPOSE protected = Some SLRU.demote ->
  SLRU.sized p -> SLRU.sized (LRU.dispose_all protected gone p).
Proof.
  intros Hd. revert p. induction gone as [|hit gone IH]; intros p Hp; [assumption|].
  rewrite dispose_all_cons. apply IH.
  rewrite (call_dispose_demote _ Hd). now apply set_sized.
Qed.

Lemma protected_set_world_sized (k v : JsValue)
    (protected : SLRU.Protected) (p : SLRU.Probationary) :
  LRU.DISPOSE protected = Some SLRU.demote ->
  LRU.NO_DISPOSE_ON_SET protected = true ->
  SLRU.sized p -> SLRU.sized (snd (LRU.set k v protected p)).
Proof.
  intros Hd Hn Hp. destruct (set_split k v protected p) as (gone & _ & _ & -> & _).
  unfold LRU.set_overwrite. rewrite Hn.
  destruct (LRU.find k _); now apply dispose_all_sized.
Qed.

Lemma protected_del_world_sized (k : JsValue)
    (protected : SLRU.Protected) (p : SLRU.Probationary) :
  LRU.DISPOSE protected = Some SLRU.demote ->
  SLRU.sized p -> SLRU.sized (snd (LRU.del k protected p)).
Proof.
  intros Hd Hp. unfold LRU.del. destruct (LRU.find k _); [|assumption].
  cbn [snd]. rewrite (call_dispose_demote _ Hd). now apply set_sized.
Qed.

Lemma call_sized (op : SLRU.Call) (c : SLRU.Cache) :
  SLRU.wired c ->
  SLRU.sized (SLRU.protectedLru c) /\ SLRU.sized (SLRU.probationaryLru c) ->
  SLRU.sized (SLRU.protectedLru (SLRU.call op c)) /\
  SLRU.sized (SLRU.probationaryLru (SLRU.call op c)).
Proof.
  intros (Hd & Hn & _) [H1 H2].
  destruct op as [k|k|k|k v|k|]; cbn [SLRU.call]; try (now split).
  - (* get *)
    unfold SLRU.get.
    pose proof (get_sized k _ H1) as Hg.
    pose proof (config_fields _ _ (get_config k (SLRU.protectedLru c)))
      as (_ & _ & Hd1 & Hn1).
    destruct (LRU.get k (SLRU.protectedLru c)) as [item protected1].
    cbn [snd] in Hg, Hd1, Hn1. rewrite <- Hd1 in Hd. rewrite <- Hn1 in Hn.
    destruct (SLRU.is_undefined item && _); [now split|].
    destruct (negb (SLRU.is_undefined item)); [now split|].
    pose proof (set_sized k (LRU.peek k (SLRU.probationaryLru c)) protected1
                  (SLRU.probationary_del k (SLRU.probationaryLru c)) Hg) as Ha.
    pose proof (protected_set_world_sized k (LRU.peek k (SLRU.probationaryLru c))
                  protected1 _ Hd Hn (del_sized k _ tt H2)) as Hb.
    destruct (LRU.set k _ protected1 _). now split.
  - (* set *)
    unfold SLRU.set. destruct (LRU.has k (SLRU.protectedLru c)).
    + pose proof (set_sized k v _ (SLRU.probationaryLru c) H1) as Ha.
      pose proof (protected_set_world_sized k v _ _ Hd Hn H2) as Hb.
      destruct (LRU.set k v _ _). now split.
    + destruct (LRU.has k (SLRU.probationaryLru c)).
      * pose proof (set_sized k v _
                      (SLRU.probationary_del k (SLRU.probationaryLru c)) H1) as Ha.
        pose proof (protected_set_world_sized k v _ _ Hd Hn (del_sized k _ tt H2))
          as Hb.
        destruct (LRU.set k v _ _). now split.
      * split; [assumption | now apply set_sized].
  - (* del *)
    unfold SLRU.del.
    pose proof (del_sized k _ (SLRU.probationary_del k (SLRU.probationaryLru c)) H1)
      as Ha.
    pose proof (protected_del_world_sized k _ _ Hd (del_sized k _ tt H2)) as Hb.
    destruct (LRU.del k _ _). split; [assumption | now apply del_sized].
  - (* reset *)
    split; constructor.
Qed.

Lemma run_sized (ops : list SLRU.Call) (c : SLRU.Cache) :
  SLRU.consistent c ->
  SLRU.sized (SLRU.protectedLru c) /\ SLRU.sized (SLRU.probationaryLru c) ->
  SLRU.sized (SLRU.protectedLru (SLRU.run ops c)) /\
  SLRU.sized (SLRU.probationaryLru (SLRU.run ops c)).
Proof.
  revert c. induction ops as [|op ops IH]; intros c Hc Hs; [assumption|].
  apply (IH _ (call_consistent op c Hc)). apply call_sized; [apply Hc | exact Hs].
Qed.

(** With unit weights in the protected segment, the default, an update of a
    protected key never touches the probationary segment, in any state a
    cache can reach. *)
Corollary set_protected_unit_weights (options : option SLRU.Options)
    (c0 : SLRU.Cache) (ops : list SLRU.Call) (k v : JsValue) :
  SLRU.constructor options = Ok c0 ->
  LRU.LENGTH_CALCULATOR (SLRU.protectedLru c0) = LRU.naiveLength ->
  LRU.has k (SLRU.protectedLru (SLRU.run ops c0)) = true ->
  SLRU.probationaryLru (SLRU.set k v (SLRU.run ops c0)) =
    SLRU.probationaryLru (SLRU.run ops c0) /\
  LRU.LRU_LIST (SLRU.protectedLru (SLRU.set k v (SLRU.run ops c0))) =
    LRU.mkEntry k v 1 :: LRU.remove k (LRU.LRU_LIST (SLRU.protectedLru (SLRU.run ops c0))).
Proof.
  intros Hnew Hunit Hhas.
  pose proof (constructor_Ok _ _ Hnew) as (_ & He1 & He2 & _).
  pose proof (constructor_consistent _ _ Hnew) as Hc0.
  pose proof (run_consistent ops c0 Hc0) as Hc.
  assert (Hs0 : SLRU.sized (SLRU.protectedLru c0) /\ SLRU.sized (SLRU.probationaryLru c0)).
  { unfold SLRU.sized. rewrite He1, He2. split; constructor. }
  destruct (run_sized ops c0 Hc0 Hs0) as [Hs _].
  destruct (run_config ops c0 Hc0) as [Hcfg _].
  apply config_fields in Hcfg as (_ & Hcalc & _). rewrite Hunit in Hcalc.
  unfold LRU.has in Hhas.
  destruct (LRU.find k (LRU.LRU_LIST (SLRU.protectedLru (SLRU.run ops c0))))
    as [old|] eqn:Hfind; [|discriminate].
  pose proof (find_Some _ _ _ Hfind) as [_ Hin].
  unfold SLRU.sized in Hs. rewrite Forall_forall in Hs. specialize (Hs old Hin).
  rewrite Hcalc in Hs.
  destruct (set_protected_no_heavier k v _ old Hc Hfind) as [Hp Hl].
  - rewrite Hcalc, Hs. unfold LRU.naiveLength. lia.
  - split; [exact Hp|]. rewrite Hl. unfold LRU.set_list. now rewrite Hcalc.
Qed.

(** * Construction *)

(** [construct], given the store as modelled, is [constructor] on the
    arguments [constructor] covers. *)
Lemma construct_constructor (options : option SLRU.Options) :
  SLRU.construct SLRU.modelled_store (SLRU.argument_of options) =
    match SLRU.constructor options with
    | Ok c => SLRU.Built c
    | Throw e => SLRU.StoreRefused e
    end.
Proof.
  destruct options as [[[|n|m l] [|n'|m' l']]|];
    cbv [SLRU.construct SLRU.constructor SLRU.modelled_store SLRU.argument_of
         SLRU.effective SLRU.probationary_of SLRU.protectedOptions
         SLRU.probationaryOptions SLRU.store_argument SLRU.protected_store_options
         SLRU.segment_max];
    repeat match goal with
           | |- context [match LRU.constructor ?a with _ => _ end] =>
               destruct (LRU.constructor a)
           end; reflexivity.
Qed.




Lemma consistent_exclusive_of (c : SLRU.Cache) :
  SLRU.consistent c -> SLRU.exclusive c.
Proof. intros H. apply H. Qed.

(** * Iteration *)

Lemma record_visit_fold (l : list LRU.Entry) (seen : list (JsValue * JsValue)) :
  fold_left (fun acc hit => SLRU.record_visit (LRU.value hit) (LRU.key hit) acc) l seen
  = seen ++ map SLRU.item l.
Proof.
  revert seen. induction l as [|e l IH]; intros seen; simpl.
  - now rewrite app_nil_r.
  - rewrite IH. unfold SLRU.record_visit. now rewrite <- app_assoc.
Qed.

(** C9 (iteration order).  [forEach] calls back on the entries of the
    protected segment from most to least recently used and then on those of
    the probationary segment from most to least recently used; [rforEach]
    takes each segment from least to most recently used, the protected one
    still first; [keys()] and [values()] list the keys and values in the
    order of [forEach]. *)
Theorem iteration_order (A : Type) (callbackFn : JsValue -> JsValue -> A -> A)
    (a : A) (c : SLRU.Cache) :
  SLRU.forEach callbackFn c a =
    fold_left (fun acc hit => callbackFn (LRU.value hit) (LRU.key hit) acc)
      (LRU.LRU_LIST (SLRU.protectedLru c) ++ LRU.LRU_LIST (SLRU.probationaryLru c)) a /\
  SLRU.rforEach callbackFn c a =
    fold_left (fun acc hit => callbackFn (LRU.value hit) (LRU.key hit) acc)
      (rev (LRU.LRU_LIST (SLRU.protectedLru c)) ++
       rev (LRU.LRU_LIST (SLRU.probationaryLru c))) a /\
  SLRU.forEach SLRU.record_visit c [] =
    map SLRU.item (LRU.LRU_LIST (SLRU.protectedLru c)) ++
    map SLRU.item (LRU.LRU_LIST (SLRU.probationaryLru c)) /\
  SLRU.rforEach SLRU.record_visit c [] =
    rev (map SLRU.item (LRU.LRU_LIST (SLRU.protectedLru c))) ++
    rev (map SLRU.item (LRU.LRU_LIST (SLRU.probationaryLru c))) /\
  SLRU.keys c = map fst (SLRU.forEach SLRU.record_visit c []) /\
  SLRU.values c = map snd (SLRU.forEach SLRU.record_visit c []).
Proof.
  assert (Hf : SLRU.forEach SLRU.record_visit c [] =
    map SLRU.item (LRU.LRU_LIST (SLRU.protectedLru c)) ++
    map SLRU.item (LRU.LRU_LIST (SLRU.probationaryLru c))).
  { unfold SLRU.forEach, LRU.forEach. now rewrite !record_visit_fold. }
  split; [|split; [|split; [|split; [|split]]]].
  - unfold SLRU.forEach, LRU.forEach. now rewrite fold_left_app.
  - unfold SLRU.rforEach, LRU.rforEach. now rewrite fold_left_app.
  - exact Hf.
  - unfold SLRU.rforEach, LRU.rforEach. now rewrite !record_visit_fold, !map_rev.
  - rewrite Hf, map_app, !map_map. reflexivity.
  - rewrite Hf, map_app, !map_map. reflexivity.
Qed.

(** * Values equal to the miss sentinel *)



(** * The repository's tests, replayed on the model *)

Example test_evicts_from_probationary :
  let c := SLRU.run [SLRU.CallSet (JsStr "0") (JsStr "0");
                     SLRU.CallSet (JsStr "1") (JsStr "1");
                     SLRU.CallSet (JsStr "2") (JsStr "2")]
             (SLRU.of_lists (LRU.Finite 10) (LRU.Finite 2) [] []) in
  SLRU.peek (JsStr "0") c = undefined /\
  SLRU.peek (JsStr "1") c = JsStr "1" /\
  LRU.peek (JsStr "2") (SLRU.probationaryLru c) = JsStr "2".
Proof. repeat split. Qed.

Example test_evicts_from_protected_to_probationary :
  let c := SLRU.run (Sample.cascade ++ [SLRU.CallGet (JsNum 0)]) Sample.cache22 in
  fst (SLRU.get (JsNum 0) (SLRU.run Sample.cascade Sample.cache22)) = JsStr "0" /\
  LRU.peek (JsNum 0) (SLRU.protectedLru c) = JsStr "0" /\
  LRU.peek (JsNum 0) (SLRU.probationaryLru c) = undefined /\
  LRU.peek (JsNum 1) (SLRU.probationaryLru c) = JsStr "1" /\
  LRU.peek (JsNum 1) (SLRU.protectedLru c) = undefined.
Proof. repeat split. Qed.

Example test_promotes_on_update :
  let c := SLRU.run [SLRU.CallSet (JsStr "0") (JsStr "0");
                     SLRU.CallSet (JsStr "0") (JsStr "00")] Sample.cache22 in
  SLRU.peek (JsStr "0") c = JsStr "00" /\
  LRU.peek (JsStr "0") (SLRU.probationaryLru c) = undefined /\
  LRU.peek (JsStr "0") (SLRU.protectedLru c) = JsStr "00".
Proof. repeat split. Qed.

Example test_deletes_permanently :
  let c := SLRU.run [SLRU.CallSet (JsStr "0") (JsStr "0"); SLRU.CallGet (JsStr "0");
                     SLRU.CallSet (JsStr "1") (JsStr "1");
                     SLRU.CallDel (JsStr "0"); SLRU.CallDel (JsStr "1")]
             Sample.cache22 in
  SLRU.keys c = [].
Proof. reflexivity. Qed.

Example test_falsy_values :
  let c := SLRU.set (JsStr "foo") (JsNum 0) Sample.cache22 in
  fst (SLRU.get (JsStr "foo") Sample.cache22) = undefined /\
  SLRU.peek (JsStr "foo") c = JsNum 0 /\
  SLRU.has (JsStr "foo") c = true /\
  fst (SLRU.get (JsStr "foo") c) = JsNum 0 /\
  SLRU.has (JsStr "foo") (snd (SLRU.get (JsStr "foo") c)) = true.
Proof. repeat split. Qed.

Example test_lack_of_options :
  exists c0, SLRU.constructor None = Ok c0 /\
    fst (SLRU.get (JsStr "foo") (SLRU.set (JsStr "foo") (JsStr "0") c0)) = JsStr "0".
Proof. eexists. split; reflexivity. Qed.

Example test_passes_options :
  SLRU.constructor Sample.heavy_options = Ok Sample.heavy_cache /\
  let c := SLRU.run [SLRU.CallSet (JsStr "0") (JsStr "0"); SLRU.CallGet (JsStr "0");
                     SLRU.CallGet (JsStr "0");
                     SLRU.CallSet (JsStr "1") (JsStr "1"); SLRU.CallGet (JsStr "1")]
             Sample.heavy_cache in
  LRU.peek (JsStr "0") (SLRU.probationaryLru c) = JsStr "0" /\
  LRU.peek (JsStr "0") (SLRU.protectedLru c) = undefined /\
  LRU.peek (JsStr "1") (SLRU.probationaryLru c) = undefined /\
  LRU.peek (JsStr "1") (SLRU.protectedLru c) = JsStr "1".
Proof. repeat split. Qed.

Example test_forEach_rforEach :
  SLRU.forEach SLRU.record_visit Sample.setupCache [] =
    [(JsStr "1", JsStr "1"); (JsStr "0", JsStr "0");
     (JsStr "3", JsStr "3"); (JsStr "2", JsStr "2")] /\
  SLRU.rforEach SLRU.record_visit Sample.setupCache [] =
    [(JsStr "0", JsStr "0"); (JsStr "1", JsStr "1");
     (JsStr "2", JsStr "2"); (JsStr "3", JsStr "3")].
Proof. split; reflexivity. Qed.

Example test_keys_values_length :
  let c := SLRU.set (JsStr "3") (JsStr "3v") Sample.setupCache in
  SLRU.keys c = [JsStr "3"; JsStr "1"; JsStr "0"; JsStr "2"] /\
  SLRU.values c = [JsStr "3v"; JsStr "1"; JsStr "0"; JsStr "2"] /\
  SLRU.length c = 4%N /\
  SLRU.itemCount c = 4.
Proof. repeat split. Qed.

(** A value too heavy for the protected segment is not promoted either: it
    is evicted at once and the hook puts it back where it came from. *)
Example oversized_value_is_not_promoted :
  let c := SLRU.set (JsStr "a") (JsStr "x") Sample.tiny_cache in
  LRU.has (JsStr "a") (SLRU.probationaryLru c) = true /\
  fst (SLRU.get (JsStr "a") c) = JsStr "x" /\
  LRU.has (JsStr "a") (SLRU.protectedLru (snd (SLRU.get (JsStr "a") c))) = false /\
  LRU.has (JsStr "a") (SLRU.probationaryLru (snd (SLRU.get (JsStr "a") c))) = true.
Proof. repeat split. Qed.

(** * Lookups *)

Lemma store_get_peek {W : Type} (k : JsValue) (c : LRU.LRUCache W) :
  fst (LRU.get k c) = LRU.peek k c.
Proof.
  unfold LRU.get, LRU.peek. now destruct (LRU.find k (LRU.LRU_LIST c)).
Qed.

Lemma get_peek_same (k : JsValue) (c : SLRU.Cache) :
  fst (SLRU.get k c) = SLRU.peek k c.
Proof.
  unfold SLRU.get, SLRU.peek.
  pose proof (store_get_peek k (SLRU.protectedLru c)) as Hitem.
  destruct (LRU.get k (SLRU.protectedLru c)) as [item protected1].
  cbn [fst] in Hitem. subst item.
  destruct (SLRU.is_undefined (LRU.peek k (SLRU.protectedLru c))) eqn:E1.
  - destruct (SLRU.is_undefined (LRU.peek k (SLRU.probationaryLru c))) eqn:E2.
    + apply is_undefined_true in E2. now rewrite E2.
    + cbn [andb negb]. now destruct (LRU.set k _ protected1 _).
  - reflexivity.
Qed.

(** X1.  [get(key)] returns what [peek(key)] returns, in every state: the
    two differ in what they do to the cache, never in the value. *)
Theorem get_returns_peek (key : JsValue) (c : SLRU.Cache) :
  fst (SLRU.get key c) = SLRU.peek key c.
Proof. apply get_peek_same. Qed.

Lemma has_split (k : JsValue) (c : SLRU.Cache) :
  SLRU.has k c = false <->
  LRU.has k (SLRU.protectedLru c) = false /\
  LRU.has k (SLRU.probationaryLru c) = false.
Proof. unfold SLRU.has. apply orb_false_iff. Qed.

Lemma store_del_miss {W : Type} (k : JsValue) (c : LRU.LRUCache W) (w : W) :
  LRU.has k c = false -> LRU.del k c w = (c, w).
Proof.
  unfold LRU.has, LRU.del.
  destruct (LRU.find k (LRU.LRU_LIST c)); [discriminate | reflexivity].
Qed.

Lemma del_miss (k : JsValue) (c : SLRU.Cache) :
  SLRU.has k c = false -> SLRU.del k c = c.
Proof.
  intros H. apply has_split in H as [H1 H2]. unfold SLRU.del, SLRU.probationary_del.
  rewrite (store_del_miss k _ tt H2). cbn [fst].
  rewrite (store_del_miss k _ _ H1), (store_del_miss k _ tt H2).
  now destruct c.
Qed.

(** X2.  A key that is in neither segment is a miss for every call: [get]
    and [peek] return [undefined], and [get] and [del] leave the cache as it
    was. *)
Theorem missing_key (key : JsValue) (c : SLRU.Cache) :
  SLRU.has key c = false ->
  SLRU.get key c = (undefined, c) /\
  SLRU.peek key c = undefined /\
  SLRU.del key c = c.
Proof.
  intros H. pose proof H as H'. apply has_split in H' as [H1 H2].
  split; [|split].
  - unfold SLRU.get. rewrite (get_miss key _ H1).
    rewrite (peek_miss key _ H2). cbn. now destruct c.
  - unfold SLRU.peek. now rewrite (peek_miss key _ H1), (peek_miss key _ H2).
  - now apply del_miss.
Qed.

Lemma missing_key_witness :
  SLRU.get (JsStr "9") Sample.setupCache = (undefined, Sample.setupCache) /\
  SLRU.peek (JsStr "9") Sample.setupCache = undefined /\
  SLRU.del (JsStr "9") Sample.setupCache = Sample.setupCache.
Proof.
  apply (missing_key (JsStr "9") Sample.setupCache). reflexivity.
Defined.

Lemma find_remove_other (k j : JsValue) (l : list LRU.Entry) :
  j <> k -> LRU.find j (LRU.remove k l) = LRU.find j l.
Proof.
  intros Hne. induction l as [|e l IH]; [reflexivity|].
  unfold LRU.find, LRU.remove in *. simpl.
  destruct (strict_eq (LRU.key e) k) eqn:Ek; simpl.
  - apply strict_eq_true in Ek.
    destruct (strict_eq (LRU.key e) j) eqn:Ej; [|exact IH].
    apply strict_eq_true in Ej. congruence.
  - destruct (strict_eq (LRU.key e) j); [reflexivity | exact IH].
Qed.

Lemma find_moved_front (k j : JsValue) (l : list LRU.Entry) (hit : LRU.Entry) :
  LRU.find k l = Some hit ->
  LRU.find j (hit :: LRU.remove k l) = LRU.find j l.
Proof.
  intros Hf. pose proof (find_Some _ _ _ Hf) as [Hk _].
  destruct (strict_eq k j) eqn:E.
  - apply strict_eq_true in E. subst j. rewrite Hf.
    unfold LRU.find. simpl. now rewrite Hk, strict_eq_refl.
  - apply strict_eq_false in E.
    unfold LRU.find at 1. simpl. rewrite Hk.
    destruct (strict_eq k j) eqn:E'; [apply strict_eq_true in E'; contradiction|].
    apply find_remove_other. congruence.
Qed.

(** A hit in a store moves the entry to the front and changes no lookup. *)
Lemma store_get_lookups {W : Type} (k j : JsValue) (c : LRU.LRUCache W) :
  LRU.has j (snd (LRU.get k c)) = LRU.has j c /\
  LRU.peek j (snd (LRU.get k c)) = LRU.peek j c.
Proof.
  destruct (get_unfold k c) as [-> | (hit & Hf & ->)]; [now split|].
  unfold LRU.has, LRU.peek. cbn [snd LRU.with_list LRU.LRU_LIST].
  now rewrite (find_moved_front k j _ hit Hf).
Qed.

Lemma protected_hit (k : JsValue) (c : SLRU.Cache) :
  LRU.has k (SLRU.protectedLru c) = true ->
  LRU.peek k (SLRU.protectedLru c) <> undefined ->
  SLRU.get k c =
    (LRU.peek k (SLRU.protectedLru c),
     SLRU.mkCache (snd (LRU.get k (SLRU.protectedLru c))) (SLRU.probationaryLru c)).
Proof.
  intros Hhas Hv. unfold SLRU.get.
  pose proof (store_get_peek k (SLRU.protectedLru c)) as Hitem.
  destruct (LRU.get k (SLRU.protectedLru c)) as [item protected1].
  cbn [fst snd] in *. subst item.
  apply strict_eq_false in Hv. unfold SLRU.is_undefined. now rewrite Hv.
Qed.

(** X3.  [get(key)] of a key the protected segment holds with a value other
    than [undefined] returns that value and makes the key the most recently
    used entry of the protected segment; nothing is promoted or demoted: the
    probationary segment is unchanged and every key of the protected segment
    is still there with its value. *)
Theorem get_protected_hit (key : JsValue) (c : SLRU.Cache) :
  LRU.has key (SLRU.protectedLru c) = true ->
  LRU.peek key (SLRU.protectedLru c) <> undefined ->
  fst (SLRU.get key c) = LRU.peek key (SLRU.protectedLru c) /\
  SLRU.probationaryLru (snd (SLRU.get key c)) = SLRU.probationaryLru c /\
  hd_error (LRU.keys (SLRU.protectedLru (snd (SLRU.get key c)))) = Some key /\
  (forall j, LRU.has j (SLRU.protectedLru (snd (SLRU.get key c))) =
             LRU.has j (SLRU.protectedLru c)) /\
  (forall j, LRU.peek j (SLRU.protectedLru (snd (SLRU.get key c))) =
             LRU.peek j (SLRU.protectedLru c)).
Proof.
  intros Hhas Hv. rewrite (protected_hit key c Hhas Hv).
  cbn [fst snd SLRU.protectedLru SLRU.probationaryLru].
  destruct (get_hit key _ Hhas) as [_ Hhd].
  split; [reflexivity|]. split; [reflexivity|]. split; [exact Hhd|].
  split; intros j; apply (store_get_lookups key j).
Qed.

Lemma get_protected_hit_witness :
  let c := Sample.setupCache in
  let key := JsStr "0" in
  fst (SLRU.get key c) = LRU.peek key (SLRU.protectedLru c) /\
  SLRU.probationaryLru (snd (SLRU.get key c)) = SLRU.probationaryLru c /\
  hd_error (LRU.keys (SLRU.protectedLru (snd (SLRU.get key c)))) = Some key /\
  (forall j, LRU.has j (SLRU.protectedLru (snd (SLRU.get key c))) =
             LRU.has j (SLRU.protectedLru c)) /\
  (forall j, LRU.peek j (SLRU.protectedLru (snd (SLRU.get key c))) =
             LRU.peek j (SLRU.protectedLru c)).
Proof.
  apply (get_protected_hit (JsStr "0") Sample.setupCache).
  - reflexivity.
  - discriminate.
Defined.

(** * Insertion and update *)

Lemma stored_peek (k v : JsValue) (c : SLRU.Cache) :
  SLRU.exclusive c -> SLRU.stored k v c ->
  SLRU.peek k c = v /\ SLRU.has k c = true.
Proof.
  intros Hex [[Hhas Hpeek] | [Hhas Hpeek]]; unfold SLRU.peek, SLRU.has.
  - rewrite Hhas, Hpeek. split; [|reflexivity].
    destruct (SLRU.is_undefined v) eqn:E; [|reflexivity].
    apply is_undefined_true in E. rewrite E.
    apply peek_miss. destruct (LRU.has k (SLRU.probationaryLru c)) eqn:E'; [|reflexivity].
    exfalso. apply (Hex k). now split.
  - rewrite Hhas, Hpeek, orb_true_r. split; [|reflexivity].
    assert (Hprot : LRU.has k (SLRU.protectedLru c) = false).
    { destruct (LRU.has k (SLRU.protectedLru c)) eqn:E; [|reflexivity].
      exfalso. apply (Hex k). now split. }
    now rewrite (peek_miss k _ Hprot).
Qed.

Lemma set_stores (k v : JsValue) (c : SLRU.Cache) :
  LRU.exceeds (LRU.LENGTH_CALCULATOR (SLRU.protectedLru c) v k)
              (LRU.MAX (SLRU.protectedLru c)) = false ->
  LRU.exceeds (LRU.LENGTH_CALCULATOR (SLRU.probationaryLru c) v k)
              (LRU.MAX (SLRU.probationaryLru c)) = false ->
  SLRU.stored k v (SLRU.set k v c).
Proof.
  intros Hfit1 Hfit2. unfold SLRU.set.
  destruct (LRU.has k (SLRU.protectedLru c)).
  - destruct (set_head k v (SLRU.protectedLru c) (SLRU.probationaryLru c) Hfit1)
      as (gone & kept & _ & ->).
    left. apply has_head.
  - destruct (LRU.has k (SLRU.probationaryLru c)).
    + destruct (set_head k v (SLRU.protectedLru c)
                  (SLRU.probationary_del k (SLRU.probationaryLru c)) Hfit1)
        as (gone & kept & _ & ->).
      left. apply has_head.
    + right. unfold SLRU.probationary_set. cbn [SLRU.probationaryLru].
      destruct (set_head k v (SLRU.probationaryLru c) tt Hfit2)
        as (gone & kept & _ & ->).
      apply has_head.
Qed.

(** X4.  What [set(key, value)] stores is what the lookups give back: in a
    consistent cache, for a value whose weight fits the capacity of either
    segment, [peek(key)] and [get(key)] return [value] after the [set] and
    [has(key)] is true. *)
Theorem set_then_lookup (key value : JsValue) (c : SLRU.Cache) :
  SLRU.consistent c ->
  LRU.exceeds (LRU.LENGTH_CALCULATOR (SLRU.protectedLru c) value key)
              (LRU.MAX (SLRU.protectedLru c)) = false ->
  LRU.exceeds (LRU.LENGTH_CALCULATOR (SLRU.probationaryLru c) value key)
              (LRU.MAX (SLRU.probationaryLru c)) = false ->
  SLRU.peek key (SLRU.set key value c) = value /\
  fst (SLRU.get key (SLRU.set key value c)) = value /\
  SLRU.has key (SLRU.set key value c) = true.
Proof.
  intros Hc Hfit1 Hfit2.
  destruct (stored_peek key value (SLRU.set key value c)) as [Hpeek Hhas].
  - apply consistent_exclusive_of. now apply set_consistent.
  - now apply set_stores.
  - rewrite get_peek_same. auto.
Qed.

Lemma set_then_lookup_witness :
  let c := Sample.setupCache in
  SLRU.peek (JsStr "3") (SLRU.set (JsStr "3") (JsStr "3v") c) = JsStr "3v" /\
  fst (SLRU.get (JsStr "3") (SLRU.set (JsStr "3") (JsStr "3v") c)) = JsStr "3v" /\
  SLRU.has (JsStr "3") (SLRU.set (JsStr "3") (JsStr "3v") c) = true.
Proof.
  apply (set_then_lookup (JsStr "3") (JsStr "3v") Sample.setupCache).
  - apply run_consistent, (constructor_consistent Sample.options22). reflexivity.
  - reflexivity.
  - reflexivity.
Defined.

Lemma set_new_key (k v : JsValue) (c : SLRU.Cache) :
  SLRU.has k c = false ->
  SLRU.set k v c =
    SLRU.mkCache (SLRU.protectedLru c)
                 (SLRU.probationary_set k v (SLRU.probationaryLru c)).
Proof.
  intros H. apply has_split in H as [H1 H2]. unfold SLRU.set. now rewrite H1, H2.
Qed.

(** X5.  [set(key, value)] of a key that is in neither segment leaves the
    protected segment untouched and, when the value fits the probationary
    capacity, makes the key the most recently used probationary entry; the
    entries that stay keep their order, the ones dropped come from the least
    recently used end, and a dropped key is gone from the whole cache. *)
Theorem set_inserts_probationary (key value : JsValue) (c : SLRU.Cache) :
  SLRU.consistent c ->
  SLRU.has key c = false ->
  LRU.exceeds (LRU.LENGTH_CALCULATOR (SLRU.probationaryLru c) value key)
              (LRU.MAX (SLRU.probationaryLru c)) = false ->
  SLRU.protectedLru (SLRU.set key value c) = SLRU.protectedLru c /\
  exists kept gone,
    LRU.LRU_LIST (SLRU.probationaryLru c) = kept ++ rev gone /\
    LRU.LRU_LIST (SLRU.probationaryLru (SLRU.set key value c)) =
      LRU.mkEntry key value
        (LRU.LENGTH_CALCULATOR (SLRU.probationaryLru c) value key) :: kept /\
    forall g, In g gone -> SLRU.has (LRU.key g) (SLRU.set key value c) = false.
Proof.
  intros [_ _ Hwf Hex _ _] Hnew Hfit. rewrite (set_new_key key value c Hnew).
  apply has_split in Hnew as [H1 H2].
  cbn [SLRU.protectedLru SLRU.probationaryLru]. split; [reflexivity|].
  unfold SLRU.probationary_set.
  destruct (set_head key value (SLRU.probationaryLru c) tt Hfit)
    as (gone & kept & Hs & ->).
  apply has_false in H2. rewrite (remove_absent _ _ H2) in Hs.
  exists kept, gone. split; [exact Hs|]. split; [reflexivity|].
  intros g Hg. apply has_split. cbn [fst SLRU.protectedLru SLRU.probationaryLru].
  unfold SLRU.well_formed, LRU.keys in Hwf. rewrite Hs, map_app in Hwf.
  assert (Hin : In (LRU.key g) (LRU.keys (SLRU.probationaryLru c))).
  { unfold LRU.keys. rewrite Hs, map_app. apply in_or_app. right.
    apply in_map. now apply in_rev in Hg. }
  split.
  - destruct (LRU.has (LRU.key g) (SLRU.protectedLru c)) eqn:E; [|reflexivity].
    exfalso. apply (Hex (LRU.key g)). split; [exact E | now apply has_In].
  - apply has_false. unfold LRU.keys. cbn [LRU.with_list LRU.LRU_LIST map LRU.key].
    intros [Hk | Hk].
    + apply H2. now rewrite Hk.
    + apply (NoDup_app_disjoint _ _ _ Hwf Hk).
      apply in_map. now apply in_rev in Hg.
Qed.

Lemma set_inserts_probationary_witness :
  let c := Sample.setupCache in
  SLRU.protectedLru (SLRU.set (JsStr "4") (JsStr "4") c) = SLRU.protectedLru c /\
  exists kept gone,
    LRU.LRU_LIST (SLRU.probationaryLru c) = kept ++ rev gone /\
    LRU.LRU_LIST (SLRU.probationaryLru (SLRU.set (JsStr "4") (JsStr "4") c)) =
      LRU.mkEntry (JsStr "4") (JsStr "4")
        (LRU.LENGTH_CALCULATOR (SLRU.probationaryLru c) (JsStr "4") (JsStr "4"))
      :: kept /\
    forall g, In g gone ->
      SLRU.has (LRU.key g) (SLRU.set (JsStr "4") (JsStr "4") c) = false.
Proof.
  apply (set_inserts_probationary (JsStr "4") (JsStr "4") Sample.setupCache).
  - apply run_consistent, (constructor_consistent Sample.options22). reflexivity.
  - reflexivity.
  - reflexivity.
Defined.

Lemma promote_head (k v : JsValue) (c : SLRU.Cache) :
  SLRU.wired c ->
  LRU.has k (SLRU.protectedLru c) = false ->
  LRU.exceeds (LRU.LENGTH_CALCULATOR (SLRU.protectedLru c) v k)
              (LRU.MAX (SLRU.protectedLru c)) = false ->
  hd_error (LRU.keys (fst (LRU.set k v (SLRU.protectedLru c)
       (SLRU.probationary_del k (SLRU.probationaryLru c))))) = Some k /\
  LRU.has k (fst (LRU.set k v (SLRU.protectedLru c)
       (SLRU.probationary_del k (SLRU.probationaryLru c)))) = true /\
  LRU.peek k (fst (LRU.set k v (SLRU.protectedLru c)
       (SLRU.probationary_del k (SLRU.probationaryLru c)))) = v /\
  LRU.has k (snd (LRU.set k v (SLRU.protectedLru c)
       (SLRU.probationary_del k (SLRU.probationaryLru c)))) = false.
Proof.
  intros (Hd & Hn & _) Hprot Hfit.
  destruct (set_head k v (SLRU.protectedLru c)
              (SLRU.probationary_del k (SLRU.probationaryLru c)) Hfit)
    as (gone & kept & Hs & ->).
  cbn [fst snd].
  destruct (has_head k v (LRU.LENGTH_CALCULATOR (SLRU.protectedLru c) v k) kept
              (SLRU.protectedLru c)) as [Hhas Hpk].
  split; [reflexivity|]. split; [exact Hhas|]. split; [exact Hpk|].
  apply has_false. intros Hin.
  assert (Hover : LRU.set_overwrite (SLRU.protectedLru c) k
            (SLRU.probationary_del k (SLRU.probationaryLru c)) =
          SLRU.probationary_del k (SLRU.probationaryLru c)).
  { unfold LRU.set_overwrite. rewrite Hn. now destruct (LRU.find k _). }
  rewrite Hover in Hin.
  apply (dispose_all_keys _ Hd) in Hin as [Hin | Hin].
  - apply probationary_del_keys in Hin. tauto.
  - assert (H : In k (map LRU.key (LRU.remove k (LRU.LRU_LIST (SLRU.protectedLru c))))).
    { rewrite Hs, map_app, map_rev. apply in_or_app. right. now apply in_rev in Hin. }
    apply remove_keys in H. tauto.
Qed.

(** X6.  [set(key, value)] of a key the probationary segment holds promotes
    it with the new value: when the value fits the protected capacity, the
    key becomes the most recently used entry of the protected segment,
    holding [value], and is no longer in the probationary segment. *)
Theorem set_promotes_on_update (key value : JsValue) (c : SLRU.Cache) :
  SLRU.wired c ->
  LRU.has key (SLRU.protectedLru c) = false ->
  LRU.has key (SLRU.probationaryLru c) = true ->
  LRU.exceeds (LRU.LENGTH_CALCULATOR (SLRU.protectedLru c) value key)
              (LRU.MAX (SLRU.protectedLru c)) = false ->
  hd_error (LRU.keys (SLRU.protectedLru (SLRU.set key value c))) = Some key /\
  LRU.has key (SLRU.protectedLru (SLRU.set key value c)) = true /\
  LRU.peek key (SLRU.protectedLru (SLRU.set key value c)) = value /\
  LRU.has key (SLRU.probationaryLru (SLRU.set key value c)) = false.
Proof.
  intros Hw H1 H2 Hfit. pose proof (promote_head key value c Hw H1 Hfit) as H.
  unfold SLRU.set. rewrite H1, H2.
  destruct (LRU.set key value _ _) as [protected1 probationary2]. exact H.
Qed.

Lemma set_promotes_on_update_witness :
  let c := Sample.setupCache in
  hd_error (LRU.keys (SLRU.protectedLru (SLRU.set (JsStr "3") (JsStr "3v") c)))
    = Some (JsStr "3") /\
  LRU.has (JsStr "3") (SLRU.protectedLru (SLRU.set (JsStr "3") (JsStr "3v") c)) = true /\
  LRU.peek (JsStr "3") (SLRU.protectedLru (SLRU.set (JsStr "3") (JsStr "3v") c))
    = JsStr "3v" /\
  LRU.has (JsStr "3") (SLRU.probationaryLru (SLRU.set (JsStr "3") (JsStr "3v") c))
    = false.
Proof.
  apply (set_promotes_on_update (JsStr "3") (JsStr "3v") Sample.setupCache).
  - repeat split.
  - reflexivity.
  - reflexivity.
  - reflexivity.
Defined.

(** * What a call can do to the other entries *)

Lemma remove_items (k : JsValue) (l : list LRU.Entry) (it : JsValue * JsValue) :
  In it (map SLRU.item (LRU.remove k l)) -> In it (map SLRU.item l).
Proof.
  rewrite !in_map_iff. intros (e & He & Hin). exists e. split; [exact He|].
  unfold LRU.remove in Hin. now apply filter_In in Hin.
Qed.

Lemma set_list_items {W : Type} (c : LRU.LRUCache W) (k v : JsValue)
    (it : JsValue * JsValue) :
  In it (map SLRU.item (LRU.set_list c k v)) ->
  it = (k, v) \/ In it (map SLRU.item (LRU.LRU_LIST c)).
Proof.
  unfold LRU.set_list. cbn [map]. intros [<- | H]; [now left|].
  right. now apply remove_items in H.
Qed.

Lemma store_set_items {W : Type} (k v : JsValue) (c : LRU.LRUCache W) (w : W)
    (it : JsValue * JsValue) :
  In it (map SLRU.item (LRU.LRU_LIST (fst (LRU.set k v c w)))) ->
  it = (k, v) \/ In it (map SLRU.item (LRU.LRU_LIST c)).
Proof.
  destruct (set_split k v c w) as (gone & Hl & _). intros H.
  apply (set_list_items c k v). rewrite Hl, map_app. apply in_or_app. now left.
Qed.

Lemma store_get_items {W : Type} (k : JsValue) (c : LRU.LRUCache W)
    (it : JsValue * JsValue) :
  In it (map SLRU.item (LRU.LRU_LIST (snd (LRU.get k c)))) ->
  In it (map SLRU.item (LRU.LRU_LIST c)).
Proof.
  destruct (get_unfold k c) as [-> | (hit & Hf & ->)]; [auto|].
  cbn [snd LRU.with_list LRU.LRU_LIST map]. intros [<- | H].
  - apply find_Some in Hf as [_ Hin]. now apply in_map.
  - now apply remove_items in H.
Qed.

Lemma probationary_del_items (k : JsValue) (p : SLRU.Probationary)
    (it : JsValue * JsValue) :
  In it (map SLRU.item (LRU.LRU_LIST (SLRU.probationary_del k p))) ->
  In it (map SLRU.item (LRU.LRU_LIST p)).
Proof. rewrite probationary_del_list. apply remove_items. Qed.

Lemma dispose_all_items (protected : SLRU.Protected) (gone : list LRU.Entry)
    (p : SLRU.Probationary) (it : JsValue * JsValue) :
  LRU.DISPOSE protected = Some SLRU.demote ->
  In it (map SLRU.item (LRU.LRU_LIST (LRU.dispose_all protected gone p))) ->
  In it (map SLRU.item (LRU.LRU_LIST p)) \/ In it (map SLRU.item gone).
Proof.
  intros Hd. revert p. induction gone as [|hit gone IH]; intros p; [now left|].
  rewrite dispose_all_cons. intros H. apply IH in H as [H | H]; [|right; now right].
  rewrite (call_dispose_demote _ Hd) in H. apply store_set_items in H as [-> | H].
  - right. now left.
  - now left.
Qed.

(** Where the pairs of the two segments come from after a [set] on the
    protected store. *)
Lemma protected_set_items (k v : JsValue) (protected : SLRU.Protected)
    (p : SLRU.Probationary) (it : JsValue * JsValue) :
  LRU.DISPOSE protected = Some SLRU.demote ->
  LRU.NO_DISPOSE_ON_SET protected = true ->
  In it (map SLRU.item (LRU.LRU_LIST (fst (LRU.set k v protected p)))) \/
  In it (map SLRU.item (LRU.LRU_LIST (snd (LRU.set k v protected p)))) ->
  it = (k, v) \/ In it (map SLRU.item (LRU.LRU_LIST protected)) \/
  In it (map SLRU.item (LRU.LRU_LIST p)).
Proof.
  intros Hd Hn [H | H].
  - apply store_set_items in H. tauto.
  - destruct (set_split k v protected p) as (gone & Hl & _ & Hw & _).
    rewrite Hw in H. unfold LRU.set_overwrite in H. rewrite Hn in H.
    assert (H' : In it (map SLRU.item (LRU.LRU_LIST (LRU.dispose_all protected gone p)))).
    { destruct (LRU.find k _); exact H. }
    apply (dispose_all_items _ _ _ _ Hd) in H' as [H' | H']; [tauto|].
    assert (Hin : In it (map SLRU.item (LRU.set_list protected k v))).
    { rewrite Hl, map_app, map_rev. apply in_or_app. right. now apply in_rev in H'. }
    apply set_list_items in Hin. tauto.
Qed.

Lemma items_split (c : SLRU.Cache) (it : JsValue * JsValue) :
  In it (SLRU.items c) <->
  In it (map SLRU.item (LRU.LRU_LIST (SLRU.protectedLru c))) \/
  In it (map SLRU.item (LRU.LRU_LIST (SLRU.probationaryLru c))).
Proof. unfold SLRU.items. apply in_app_iff. Qed.

(** A call puts no pair into the cache but the one it sets. *)
Lemma call_items (op : SLRU.Call) (c : SLRU.Cache) (it : JsValue * JsValue) :
  SLRU.wired c ->
  In it (SLRU.items (SLRU.call op c)) ->
  In it (SLRU.items c) \/ exists k v, op = SLRU.CallSet k v /\ it = (k, v).
Proof.
  intros (Hd & Hn & _). rewrite !items_split.
  destruct op as [k|k|k|k v|k|]; cbn [SLRU.call]; try tauto.
  - (* get *)
    unfold SLRU.get.
    pose proof (store_get_items k (SLRU.protectedLru c) it) as Hg.
    pose proof (config_fields _ _ (get_config k (SLRU.protectedLru c)))
      as (_ & _ & Hd1 & Hn1).
    destruct (LRU.get k (SLRU.protectedLru c)) as [item protected1].
    cbn [snd] in Hg, Hd1, Hn1. rewrite <- Hd1 in Hd. rewrite <- Hn1 in Hn.
    destruct (SLRU.is_undefined item);
      [destruct (SLRU.is_undefined (LRU.peek k (SLRU.probationaryLru c))) eqn:E2|];
      cbn [andb negb]; [cbn; tauto| |cbn; tauto].
    pose proof (protected_set_items k (LRU.peek k (SLRU.probationaryLru c))
                  protected1 (SLRU.probationary_del k (SLRU.probationaryLru c))
                  it Hd Hn) as Hs.
    destruct (LRU.set k _ protected1 _) as [protected2 probationary2].
    cbn [fst snd SLRU.protectedLru SLRU.probationaryLru] in *.
    intros H. apply Hs in H as [-> | [H | H]].
    + left. right. clear - E2. unfold LRU.peek in *.
      destruct (LRU.find k _) as [hit|] eqn:E; [|discriminate E2].
      apply find_Some in E as [<- Hin]. now apply (in_map SLRU.item) in Hin.
    + left. left. now apply Hg.
    + left. right. now apply probationary_del_items in H.
  - (* set *)
    unfold SLRU.set. destruct (LRU.has k (SLRU.protectedLru c)).
    + pose proof (protected_set_items k v (SLRU.protectedLru c)
                    (SLRU.probationaryLru c) it Hd Hn) as Hs.
      destruct (LRU.set k v _ _) as [protected1 probationary1].
      cbn [fst snd SLRU.protectedLru SLRU.probationaryLru] in *.
      intros H. apply Hs in H as [-> | H]; [right; eauto | now left].
    + destruct (LRU.has k (SLRU.probationaryLru c)).
      * pose proof (protected_set_items k v (SLRU.protectedLru c)
                      (SLRU.probationary_del k (SLRU.probationaryLru c)) it Hd Hn)
          as Hs.
        destruct (LRU.set k v _ _) as [protected1 probationary2].
        cbn [fst snd SLRU.protectedLru SLRU.probationaryLru] in *.
        intros H. apply Hs in H as [-> | [H | H]]; [right; eauto | tauto |].
        left. right. now apply probationary_del_items in H.
      * cbn [SLRU.protectedLru SLRU.probationaryLru]. intros [H | H]; [tauto|].
        apply store_set_items in H as [-> | H]; [right; eauto | tauto].
  - (* del *)
    unfold SLRU.del.
    pose proof (del_list k (SLRU.protectedLru c)
                  (SLRU.probationary_del k (SLRU.probationaryLru c))) as Hl.
    assert (Hw : In it (map SLRU.item (LRU.LRU_LIST
                   (snd (LRU.del k (SLRU.protectedLru c)
                      (SLRU.probationary_del k (SLRU.probationaryLru c)))))) ->
                 In it (map SLRU.item (LRU.LRU_LIST (SLRU.protectedLru c))) \/
                 In it (map SLRU.item (LRU.LRU_LIST (SLRU.probationaryLru c)))).
    { unfold LRU.del. destruct (LRU.find k _) as [hit|] eqn:E; cbn [snd].
      - rewrite (call_dispose_demote _ Hd). intros H.
        apply store_set_items in H as [-> | H].
        + left. apply find_Some in E as [_ Hin]. now apply (in_map SLRU.item) in Hin.
        + right. now apply probationary_del_items in H.
      - intros H. right. now apply probationary_del_items in H. }
    destruct (LRU.del k _ _) as [protected1 probationary2].
    cbn [fst snd SLRU.protectedLru SLRU.probationaryLru] in *. subst protected1.
    intros [H | H]; left.
    + left. now apply remove_items in H.
    + apply probationary_del_items in H. tauto.
  - (* reset *)
    cbn. tauto.
Qed.

Lemma find_NoDup (l : list LRU.Entry) (e : LRU.Entry) :
  NoDup (map LRU.key l) -> In e l -> LRU.find (LRU.key e) l = Some e.
Proof.
  induction l as [|x l IH]; intros Hnd Hin; [contradiction|].
  inversion Hnd as [|? ? Hnin Hnd']; subst.
  unfold LRU.find. simpl. destruct Hin as [-> | Hin].
  - now rewrite strict_eq_refl.
  - destruct (strict_eq (LRU.key x) (LRU.key e)) eqn:E.
    + apply strict_eq_true in E. exfalso. apply Hnin. rewrite E. now apply in_map.
    + now apply IH.
Qed.

Lemma store_item_lookup {W : Type} (c : LRU.LRUCache W) (j x : JsValue) :
  NoDup (LRU.keys c) ->
  In (j, x) (map SLRU.item (LRU.LRU_LIST c)) ->
  LRU.has j c = true /\ LRU.peek j c = x.
Proof.
  intros Hnd Hin. apply in_map_iff in Hin as (e & He & Hin).
  injection He as <- <-. unfold LRU.has, LRU.peek.
  now rewrite (find_NoDup _ e Hnd Hin).
Qed.

Lemma store_has_item {W : Type} (c : LRU.LRUCache W) (j : JsValue) :
  LRU.has j c = true ->
  exists x, In (j, x) (map SLRU.item (LRU.LRU_LIST c)).
Proof.
  unfold LRU.has. destruct (LRU.find j (LRU.LRU_LIST c)) as [e|] eqn:E; [|discriminate].
  intros _. apply find_Some in E as [<- Hin]. exists (LRU.value e).
  now apply (in_map SLRU.item) in Hin.
Qed.

Lemma items_stored (c : SLRU.Cache) (j x : JsValue) :
  SLRU.consistent c -> In (j, x) (SLRU.items c) -> SLRU.stored j x c.
Proof.
  intros [_ Hwf1 Hwf2 _ _ _] H. apply items_split in H as [H | H].
  - left. now apply store_item_lookup.
  - right. now apply store_item_lookup.
Qed.

Lemma has_items (c : SLRU.Cache) (j : JsValue) :
  SLRU.has j c = true -> exists x, In (j, x) (SLRU.items c).
Proof.
  unfold SLRU.has. intros H. apply orb_true_iff in H as [H | H];
    apply store_has_item in H as [x Hx]; exists x; apply items_split; tauto.
Qed.

Lemma call_keeps_others (op : SLRU.Call) (c : SLRU.Cache) (j : JsValue) :
  SLRU.consistent c ->
  (forall v, op <> SLRU.CallSet j v) ->
  SLRU.has j (SLRU.call op c) = true ->
  SLRU.has j c = true /\ SLRU.peek j (SLRU.call op c) = SLRU.peek j c.
Proof.
  intros Hc Hop Hhas. apply has_items in Hhas as [x Hx].
  pose proof (call_consistent op c Hc) as Hc'.
  pose proof (items_stored _ _ _ Hc' Hx) as Hafter.
  apply (call_items op c _ (SLRU.consistent_wired Hc)) in Hx as [Hx | (k & v & -> & E)].
  - pose proof (items_stored _ _ _ Hc Hx) as Hbefore.
    destruct (stored_peek j x _ (consistent_exclusive_of _ Hc') Hafter) as [-> _].
    destruct (stored_peek j x _ (consistent_exclusive_of _ Hc) Hbefore) as [-> ->].
    now split.
  - injection E as <- <-. exfalso. now apply (Hop x).
Qed.

(** X7.  A call touches no entry but its own: in a consistent cache, a key
    that is in the cache after a call other than a [set] of that very key
    was in the cache before the call, and its value is the one it had. *)
Theorem calls_keep_other_entries (op : SLRU.Call) (c : SLRU.Cache) (j : JsValue) :
  SLRU.consistent c ->
  (forall v, op <> SLRU.CallSet j v) ->
  SLRU.has j (SLRU.call op c) = true ->
  SLRU.has j c = true /\ SLRU.peek j (SLRU.call op c) = SLRU.peek j c.
Proof. apply call_keeps_others. Qed.

Lemma calls_keep_other_entries_witness :
  let op := SLRU.CallSet (JsStr "3") (JsStr "3v") in
  SLRU.has (JsStr "0") Sample.setupCache = true /\
  SLRU.peek (JsStr "0") (SLRU.call op Sample.setupCache) =
    SLRU.peek (JsStr "0") Sample.setupCache.
Proof.
  apply (calls_keep_other_entries (SLRU.CallSet (JsStr "3") (JsStr "3v"))
           Sample.setupCache (JsStr "0")).
  - apply run_consistent, (constructor_consistent Sample.options22). reflexivity.
  - discriminate.
  - reflexivity.
Defined.

(** * Insertions do not disturb the protected segment *)

(** X8.  Insertions never reach the protected segment: after any run of
    [set] calls on keys that are new to the cache and differ from one
    another, the protected segment is exactly what it was, however many
    entries the probationary segment had to drop. *)
Theorem insertions_spare_protected (pairs : list (JsValue * JsValue)) (c : SLRU.Cache) :
  NoDup (map fst pairs) ->
  (forall k, In k (map fst pairs) -> SLRU.has k c = false) ->
  SLRU.protectedLru (SLRU.run (SLRU.insertions pairs) c) = SLRU.protectedLru c.
Proof.
  revert c. induction pairs as [|[k v] pairs IH]; intros c Hnd Hnew; [reflexivity|].
  inversion Hnd as [|? ? Hnin Hnd']; subst.
  cbn [SLRU.insertions map SLRU.run fold_left SLRU.call fst snd].
  change (fold_left _ (map _ pairs) ?x) with (SLRU.run (SLRU.insertions pairs) x).
  assert (Hk : SLRU.has k c = false) by (apply Hnew; now left).
  rewrite IH; [now rewrite (set_new_key k v c Hk) | exact Hnd' |].
  intros j Hj. rewrite (set_new_key k v c Hk). apply has_split.
  cbn [SLRU.protectedLru SLRU.probationaryLru].
  assert (Hjc : SLRU.has j c = false) by (apply Hnew; now right).
  apply has_split in Hjc as [H1 H2]. split; [exact H1|].
  apply has_false. intros Hin. apply set_keys in Hin as [-> | Hin].
  - contradiction.
  - now apply has_false in H2.
Qed.

Lemma insertions_spare_protected_witness :
  SLRU.protectedLru
    (SLRU.run (SLRU.insertions [(JsStr "4", JsStr "4"); (JsStr "5", JsStr "5");
                                (JsStr "6", JsStr "6")]) Sample.setupCache)
  = SLRU.protectedLru Sample.setupCache.
Proof.
  apply (insertions_spare_protected
           [(JsStr "4", JsStr "4"); (JsStr "5", JsStr "5"); (JsStr "6", JsStr "6")]
           Sample.setupCache).
  - repeat constructor; simpl; intuition discriminate.
  - intros k [<- | [<- | [<- | []]]]; reflexivity.
Defined.

(** * Unit weights *)

Lemma unit_sizes {W : Type} (s : LRU.LRUCache W) :
  LRU.LENGTH_CALCULATOR s = LRU.naiveLength -> SLRU.sized s ->
  Forall (fun e => LRU.size e = 1%N) (LRU.LRU_LIST s).
Proof.
  unfold SLRU.sized. intros ->. apply Forall_impl. intros e He. exact He.
Qed.

Lemma unit_total (l : list LRU.Entry) :
  Forall (fun e => LRU.size e = 1%N) l ->
  LRU.total l = N.of_nat (List.length l).
Proof.
  induction 1 as [|e l He _ IH]; [reflexivity|].
  cbn [LRU.total fold_right List.length]. fold (LRU.total l). rewrite He, IH. lia.
Qed.

(** With unit weights, one entry over the capacity costs one eviction. *)
Lemma evict_unit {W : Type} (c : LRU.LRUCache W) (walker : list LRU.Entry) (w : W) :
  Forall (fun e => LRU.size e = 1%N) walker ->
  (forall m, LRU.MAX c = LRU.Finite m -> (LRU.total walker <= m + 1)%N) ->
  exists gone kept,
    walker = gone ++ kept /\ (List.length gone <= 1)%nat /\
    LRU.evict c walker w = (kept, LRU.dispose_all c gone w).
Proof.
  intros Hunit Hcap. destruct walker as [|hit prev].
  - exists [], []. repeat split. apply Nat.le_0_l.
  - cbn [LRU.evict].
    destruct (LRU.exceeds (LRU.total (hit :: prev)) (LRU.MAX c)) eqn:E.
    + exists [hit], prev. split; [reflexivity|]. split; [apply Nat.le_refl|].
      apply evict_fits. destruct (LRU.MAX c) as [|m] eqn:Em; [reflexivity|].
      specialize (Hcap m eq_refl). inversion Hunit as [|? ? He _]; subst.
      simpl in Hcap. simpl. apply N.ltb_ge. lia.
    + exists [], (hit :: prev). repeat split. apply Nat.le_0_l.
Qed.

Lemma trim_unit {W : Type} (c : LRU.LRUCache W) (w : W) :
  Forall (fun e => LRU.size e = 1%N) (LRU.LRU_LIST c) ->
  (forall m, LRU.MAX c = LRU.Finite m -> (LRU.LENGTH c <= m + 1)%N) ->
  exists gone kept,
    LRU.LRU_LIST c = kept ++ rev gone /\ (List.length gone <= 1)%nat /\
    LRU.trim c w = (LRU.with_list c kept, LRU.dispose_all c gone w).
Proof.
  intros Hunit Hcap. unfold LRU.trim.
  destruct (evict_unit c (rev (LRU.LRU_LIST c)) w) as (gone & kept & Hs & Hlen & ->).
  - now apply Forall_rev.
  - intros m Hm. rewrite total_rev. now apply Hcap.
  - exists gone, (rev kept). split; [|split; [exact Hlen | reflexivity]].
    rewrite <- (rev_involutive (LRU.LRU_LIST c)), Hs, rev_app_distr. reflexivity.
Qed.

Lemma within_Finite {W : Type} (s : LRU.LRUCache W) (m : N) :
  SLRU.within_capacity s -> LRU.MAX s = LRU.Finite m -> (LRU.LENGTH s <= m)%N.
Proof.
  unfold SLRU.within_capacity. intros H Hm. rewrite Hm in H.
  now apply exceeds_Finite.
Qed.

(** Every key of a list is the key set or survives its removal. *)
Lemma set_list_covers {W : Type} (c : LRU.LRUCache W) (k v j : JsValue) :
  In j (LRU.keys c) -> In j (map LRU.key (LRU.set_list c k v)).
Proof.
  intros H. apply set_list_keys. destruct (strict_eq j k) eqn:E.
  - left. now apply strict_eq_true.
  - right. split; [exact H | now apply strict_eq_false].
Qed.

(** Demotion of one entry into a probationary segment that has just lost
    one: nothing is evicted. *)
Lemma demote_into_room (t : LRU.Entry) (k : JsValue) (p : SLRU.Probationary) :
  LRU.LENGTH_CALCULATOR p = LRU.naiveLength -> SLRU.sized p ->
  SLRU.well_formed p -> SLRU.within_capacity p ->
  LRU.has k p = true ->
  LRU.LRU_LIST (SLRU.probationary_set (LRU.key t) (LRU.value t)
                  (SLRU.probationary_del k p)) =
  LRU.set_list (SLRU.probationary_del k p) (LRU.key t) (LRU.value t).
Proof.
  intros Hcalc Hsized Hwf Hcap Hhas.
  pose proof (unit_sizes p Hcalc Hsized) as Hunit.
  unfold LRU.has in Hhas.
  destruct (LRU.find k (LRU.LRU_LIST p)) as [hit|] eqn:Hf; [|discriminate].
  pose proof (total_find_remove k _ hit Hwf Hf) as Htot.
  assert (Hhit : LRU.size hit = 1%N).
  { rewrite Forall_forall in Hunit. apply Hunit. now apply find_Some in Hf. }
  unfold SLRU.probationary_set. rewrite set_unfold, trim_fits.
  - reflexivity.
  - rewrite probationary_del_list.
    cbn [LRU.with_list LRU.MAX LRU.LENGTH LRU.LRU_LIST LRU.LENGTH_CALCULATOR].
    unfold SLRU.within_capacity, LRU.LENGTH in Hcap.
    apply (exceeds_mono _ (LRU.total (LRU.LRU_LIST p))); [|exact Hcap].
    unfold LRU.set_list. cbn [LRU.with_list LRU.LRU_LIST LRU.LENGTH_CALCULATOR].
    rewrite Hcalc. unfold LRU.LENGTH.
    cbn [LRU.with_list LRU.LRU_LIST LRU.total fold_right LRU.size].
    fold (LRU.total (LRU.remove (LRU.key t) (LRU.remove k (LRU.LRU_LIST p)))).
    pose proof (total_remove (LRU.key t) (LRU.remove k (LRU.LRU_LIST p))).
    unfold LRU.naiveLength. lia.
Qed.

(** Promotion with unit weights loses no key. *)
Lemma promotion_conserves (k v j : JsValue) (c : SLRU.Cache) :
  SLRU.consistent c -> SLRU.unit_weighted c ->
  LRU.has k (SLRU.protectedLru c) = false ->
  LRU.has k (SLRU.probationaryLru c) = true ->
  SLRU.has j c = true ->
  LRU.has j (fst (LRU.set k v (SLRU.protectedLru c)
                    (SLRU.probationary_del k (SLRU.probationaryLru c)))) = true \/
  LRU.has j (snd (LRU.set k v (SLRU.protectedLru c)
                    (SLRU.probationary_del k (SLRU.probationaryLru c)))) = true.
Proof.
  intros [(Hd & Hn & _) Hwf1 Hwf2 Hex Hc1 Hc2] (Hu1 & Hu2 & Hs1 & Hs2) Hprot Hprob Hj.
  set (p1 := SLRU.probationary_del k (SLRU.probationaryLru c)).
  rewrite set_unfold.
  assert (Hover : LRU.set_overwrite (SLRU.protectedLru c) k p1 = p1).
  { unfold LRU.set_overwrite. rewrite Hn. now destruct (LRU.find k _). }
  rewrite Hover.
  pose proof (proj1 (has_false _ _) Hprot) as Habs.
  destruct (trim_unit (LRU.with_list (SLRU.protectedLru c)
              (LRU.set_list (SLRU.protectedLru c) k v)) p1)
    as (gone & kept & Hsplit & Hlen & ->).
  - cbn [LRU.with_list LRU.LRU_LIST]. unfold LRU.set_list. constructor.
    + cbn. now rewrite Hu1.
    + rewrite (remove_absent _ _ Habs). now apply unit_sizes.
  - intros m Hm. unfold LRU.LENGTH. cbn [LRU.with_list LRU.MAX LRU.LRU_LIST] in *.
    pose proof (within_Finite _ m Hc1 Hm) as Hle. unfold LRU.LENGTH in Hle.
    unfold LRU.set_list. rewrite (remove_absent _ _ Habs), Hu1.
    cbn [LRU.total fold_right LRU.size]. fold (LRU.total (LRU.LRU_LIST (SLRU.protectedLru c))).
    unfold LRU.naiveLength. lia.
  - cbn [fst snd LRU.with_list LRU.LRU_LIST] in *.
    (* where [j] was, and where it is in the list handed to the loop *)
    assert (Hcases : In j (map LRU.key (LRU.set_list (SLRU.protectedLru c) k v)) \/
                     In j (LRU.keys p1)).
    { apply orb_true_iff in Hj as [Hj | Hj]; apply has_In in Hj.
      - left. now apply set_list_covers.
      - destruct (strict_eq j k) eqn:E.
        + left. apply strict_eq_true in E. apply set_list_keys. now left.
        + right. apply probationary_del_keys. split; [exact Hj | now apply strict_eq_false]. }
    destruct gone as [|t [|t' gone]]; [| |cbn in Hlen; lia].
    + (* nothing evicted *)
      cbn [rev app] in Hsplit. rewrite app_nil_r in Hsplit.
      destruct Hcases as [H | H].
      * left. apply has_In. unfold LRU.keys. cbn [LRU.with_list LRU.LRU_LIST].
        now rewrite <- Hsplit.
      * right. now apply has_In.
    + (* one entry demoted *)
      cbn [rev app] in Hsplit. rewrite dispose_all_cons. cbn [LRU.dispose_all fold_left].
      rewrite call_dispose_with_list, (call_dispose_demote _ Hd).
      pose proof (demote_into_room t k _ Hu2 Hs2 Hwf2 Hc2 Hprob) as Hroom.
      fold p1 in Hroom.
      destruct Hcases as [H | H].
      * rewrite Hsplit, map_app in H. apply in_app_or in H as [H | [H | []]].
        -- left. now apply has_In.
        -- right. apply has_In. unfold LRU.keys. rewrite Hroom, <- H.
           apply set_list_keys. now left.
      * right. apply has_In. unfold LRU.keys. rewrite Hroom.
        now apply set_list_covers.
Qed.

Lemma constructor_lengths (options : option SLRU.Options) (c : SLRU.Cache) :
  SLRU.constructor options = Ok c ->
  LRU.LENGTH_CALCULATOR (SLRU.protectedLru c) =
    SLRU.segment_length (SLRU.protectedOptions (SLRU.effective options)) /\
  LRU.LENGTH_CALCULATOR (SLRU.probationaryLru c) =
    SLRU.segment_length (SLRU.probationaryOptions (SLRU.effective options)).
Proof.
  unfold SLRU.constructor. cbv zeta.
  destruct (SLRU.effective options) as [protected probationary].
  destruct protected as [|n|m [l|]], probationary as [|n'|m' [l'|]];
    unfold LRU.constructor; simpl;
    repeat match goal with
           | |- context [if ?b then _ else _] => destruct b
           end;
    intros H; try discriminate H; injection H as <-; split; reflexivity.
Qed.

Lemma run_unit_weighted (options : option SLRU.Options) (c0 : SLRU.Cache)
    (ops : list SLRU.Call) :
  SLRU.constructor options = Ok c0 ->
  LRU.LENGTH_CALCULATOR (SLRU.protectedLru c0) = LRU.naiveLength ->
  LRU.LENGTH_CALCULATOR (SLRU.probationaryLru c0) = LRU.naiveLength ->
  SLRU.unit_weighted (SLRU.run ops c0).
Proof.
  intros Hnew Hu1 Hu2.
  pose proof (constructor_Ok _ _ Hnew) as (_ & He1 & He2 & _).
  pose proof (constructor_consistent _ _ Hnew) as Hc0.
  assert (Hs0 : SLRU.sized (SLRU.protectedLru c0) /\ SLRU.sized (SLRU.probationaryLru c0)).
  { unfold SLRU.sized. rewrite He1, He2. split; constructor. }
  destruct (run_sized ops c0 Hc0 Hs0) as [Hs1 Hs2].
  destruct (run_config ops c0 Hc0) as [Hcfg1 Hcfg2].
  apply config_fields in Hcfg1 as (_ & Hcalc1 & _).
  apply config_fields in Hcfg2 as (_ & Hcalc2 & _).
  unfold SLRU.unit_weighted. rewrite Hcalc1, Hcalc2. auto.
Qed.

Lemma get_conserves (k j : JsValue) (c : SLRU.Cache) :
  SLRU.consistent c -> SLRU.unit_weighted c ->
  SLRU.has j (snd (SLRU.get k c)) = SLRU.has j c.
Proof.
  intros Hc Hu. apply eq_true_iff_eq. split.
  - intros H. apply (call_keeps_others (SLRU.CallGet k) c j Hc); [discriminate | exact H].
  - intros Hj. unfold SLRU.get.
    destruct (LRU.has k (SLRU.protectedLru c)) eqn:Hprot.
    + (* a protected key: the entry moves to the front *)
      assert (Hprob : LRU.has k (SLRU.probationaryLru c) = false).
      { destruct (LRU.has k (SLRU.probationaryLru c)) eqn:E; [|reflexivity].
        exfalso. apply (SLRU.consistent_exclusive Hc k). now split. }
      rewrite (peek_miss k _ Hprob).
      pose proof (proj1 (store_get_lookups k j (SLRU.protectedLru c))) as Hsame.
      destruct (LRU.get k (SLRU.protectedLru c)) as [item protected1].
      cbn [snd] in Hsame. change (SLRU.is_undefined undefined) with true.
      rewrite andb_true_r.
      destruct (SLRU.is_undefined item); cbn [negb snd]; unfold SLRU.has;
        cbn [SLRU.protectedLru SLRU.probationaryLru]; now rewrite Hsame.
    + rewrite (get_miss k _ Hprot). change (SLRU.is_undefined undefined) with true.
      cbn [andb negb].
      destruct (SLRU.is_undefined (LRU.peek k (SLRU.probationaryLru c))) eqn:E2.
      * cbn [snd]. now destruct c.
      * assert (Hprob : LRU.has k (SLRU.probationaryLru c) = true).
        { destruct (LRU.has k (SLRU.probationaryLru c)) eqn:E; [reflexivity|].
          rewrite (peek_miss k _ E) in E2. discriminate E2. }
        pose proof (promotion_conserves k (LRU.peek k (SLRU.probationaryLru c)) j c
                      Hc Hu Hprot Hprob Hj) as H.
        destruct (LRU.set k _ _ _) as [protected2 probationary2].
        cbn [fst snd] in *. unfold SLRU.has.
        cbn [SLRU.protectedLru SLRU.probationaryLru]. now apply orb_true_iff.
Qed.

Lemma set_present_conserves (k v j : JsValue) (c : SLRU.Cache) :
  SLRU.consistent c -> SLRU.unit_weighted c ->
  SLRU.has k c = true ->
  SLRU.has j (SLRU.set k v c) = SLRU.has j c.
Proof.
  intros Hc Hu Hk. apply eq_true_iff_eq. split.
  - intros H. destruct (strict_eq j k) eqn:E.
    + apply strict_eq_true in E. now subst j.
    + apply strict_eq_false in E.
      apply (call_keeps_others (SLRU.CallSet k v) c j Hc); [|exact H].
      intros v' Heq. injection Heq as Heq _. congruence.
  - intros Hj. destruct (LRU.has k (SLRU.protectedLru c)) eqn:Hprot.
    + destruct Hu as (Hu1 & _ & Hs1 & _).
      pose proof Hprot as Hfind. unfold LRU.has in Hfind.
      destruct (LRU.find k (LRU.LRU_LIST (SLRU.protectedLru c))) as [old|] eqn:Hf;
        [|discriminate].
      assert (Hold : LRU.size old = 1%N).
      { pose proof (unit_sizes _ Hu1 Hs1) as Hunit. rewrite Forall_forall in Hunit.
        apply Hunit. now apply find_Some in Hf. }
      destruct (set_protected_no_heavier k v c old Hc Hf) as [Hp Hl].
      { rewrite Hu1, Hold. unfold LRU.naiveLength. lia. }
      unfold SLRU.has in *. rewrite Hp.
      apply orb_true_iff in Hj as [Hj | Hj]; apply orb_true_iff; [left | now right].
      apply has_In. unfold LRU.keys. rewrite Hl.
      apply set_list_covers. now apply has_In.
    + assert (Hprob : LRU.has k (SLRU.probationaryLru c) = true).
      { unfold SLRU.has in Hk. rewrite Hprot in Hk. exact Hk. }
      pose proof (promotion_conserves k v j c Hc Hu Hprot Hprob Hj) as H.
      unfold SLRU.set. rewrite Hprot, Hprob.
      destruct (LRU.set k v _ _) as [protected1 probationary2].
      cbn [fst snd] in *. unfold SLRU.has.
      cbn [SLRU.protectedLru SLRU.probationaryLru]. now apply orb_true_iff.
Qed.

(** X9.  Reading and updating evict nothing when weights are the default:
    in every state of a cache built without length functions, [get(key)]
    changes the set of keys for no key, and so does [set(key, value)] of a
    key the cache already holds.  (What overflows the protected segment is
    demoted into the room the promoted key has just left.) *)
Theorem reads_and_updates_keep_keys (options : option SLRU.Options)
    (c0 : SLRU.Cache) (ops : list SLRU.Call) (key value : JsValue) :
  SLRU.constructor options = Ok c0 ->
  LRU.LENGTH_CALCULATOR (SLRU.protectedLru c0) = LRU.naiveLength ->
  LRU.LENGTH_CALCULATOR (SLRU.probationaryLru c0) = LRU.naiveLength ->
  (forall j, SLRU.has j (snd (SLRU.get key (SLRU.run ops c0))) =
             SLRU.has j (SLRU.run ops c0)) /\
  (SLRU.has key (SLRU.run ops c0) = true ->
   forall j, SLRU.has j (SLRU.set key value (SLRU.run ops c0)) =
             SLRU.has j (SLRU.run ops c0)).
Proof.
  intros Hnew Hu1 Hu2.
  pose proof (run_consistent ops c0 (constructor_consistent _ _ Hnew)) as Hc.
  pose proof (run_unit_weighted options c0 ops Hnew Hu1 Hu2) as Hu.
  split.
  - intros j. now apply get_conserves.
  - intros Hk j. now apply set_present_conserves.
Qed.

Lemma reads_and_updates_keep_keys_witness :
  let c := SLRU.run Sample.cascade Sample.cache22 in
  (forall j, SLRU.has j (snd (SLRU.get (JsNum 0) c)) = SLRU.has j c) /\
  (SLRU.has (JsNum 0) c = true ->
   forall j, SLRU.has j (SLRU.set (JsNum 0) (JsStr "00") c) = SLRU.has j c).
Proof.
  apply (reads_and_updates_keep_keys Sample.options22 Sample.cache22 Sample.cascade
           (JsNum 0) (JsStr "00")); reflexivity.
Defined.

(** * Sizes and listings *)

Lemma count_within (p : Z) (l : list LRU.Entry) :
  (0 < p)%Z ->
  Forall (fun e => LRU.size e = 1%N) l ->
  LRU.exceeds (LRU.total l) (LRU.capacity (Some p)) = false ->
  (Z.of_nat (List.length l) <= p)%Z.
Proof.
  intros Hp Hunit Hfit. unfold LRU.capacity in Hfit.
  destruct (Z.eqb_spec p 0) as [->|_]; [lia|].
  apply exceeds_Finite in Hfit. rewrite (unit_total l Hunit) in Hfit. lia.
Qed.

(** X11.  The two size queries of a cache configured with bare counts: in
    every state it can reach, [length] equals [itemCount], the protected
    segment holds at most [protectedOptions] items, the probationary one at
    most [probationaryOptions], and the cache at most their sum. *)
Theorem counts_are_bounded (p q : Z) (c0 : SLRU.Cache) (ops : list SLRU.Call) :
  (0 < p)%Z -> (0 < q)%Z ->
  SLRU.constructor (Some (SLRU.mkOptions (SLRU.MaxItems p) (SLRU.MaxItems q))) = Ok c0 ->
  SLRU.length (SLRU.run ops c0) = N.of_nat (SLRU.itemCount (SLRU.run ops c0)) /\
  (Z.of_nat (LRU.itemCount (SLRU.protectedLru (SLRU.run ops c0))) <= p)%Z /\
  (Z.of_nat (LRU.itemCount (SLRU.probationaryLru (SLRU.run ops c0))) <= q)%Z /\
  (Z.of_nat (SLRU.itemCount (SLRU.run ops c0)) <= p + q)%Z.
Proof.
  intros Hp Hq Hnew.
  pose proof (constructor_lengths _ _ Hnew) as [Hu1 Hu2].
  pose proof (constructor_Ok _ _ Hnew) as (_ & _ & _ & Hm1 & Hm2).
  cbn [SLRU.effective SLRU.protectedOptions SLRU.probationaryOptions
       SLRU.segment_length SLRU.segment_max] in *.
  pose proof (constructor_consistent _ _ Hnew) as Hc0.
  destruct (run_unit_weighted _ c0 ops Hnew Hu1 Hu2) as (Hv1 & Hv2 & Hs1 & Hs2).
  pose proof (unit_sizes _ Hv1 Hs1) as Hunit1.
  pose proof (unit_sizes _ Hv2 Hs2) as Hunit2.
  destruct (run_config ops c0 Hc0) as [Hcfg1 Hcfg2].
  apply config_fields in Hcfg1 as (Hmax1 & _).
  apply config_fields in Hcfg2 as (Hmax2 & _).
  pose proof (run_consistent ops c0 Hc0) as [_ _ _ _ Hc1 Hc2].
  unfold SLRU.within_capacity, LRU.LENGTH in Hc1, Hc2.
  rewrite Hmax1, Hm1 in Hc1. rewrite Hmax2, Hm2 in Hc2.
  pose proof (count_within p _ Hp Hunit1 Hc1) as Hb1.
  pose proof (count_within q _ Hq Hunit2 Hc2) as Hb2.
  unfold SLRU.length, SLRU.itemCount, LRU.LENGTH, LRU.itemCount in *.
  rewrite (unit_total _ Hunit1), (unit_total _ Hunit2).
  repeat split; lia.
Qed.

Lemma counts_are_bounded_witness :
  let c := SLRU.run Sample.cascade Sample.cache22 in
  SLRU.length c = N.of_nat (SLRU.itemCount c) /\
  (Z.of_nat (LRU.itemCount (SLRU.protectedLru c)) <= 2)%Z /\
  (Z.of_nat (LRU.itemCount (SLRU.probationaryLru c)) <= 2)%Z /\
  (Z.of_nat (SLRU.itemCount c) <= 2 + 2)%Z.
Proof.
  apply (counts_are_bounded 2 2 Sample.cache22 Sample.cascade); reflexivity.
Defined.

Lemma keys_have (c : SLRU.Cache) (k : JsValue) :
  SLRU.has k c = true <-> In k (SLRU.keys c).
Proof.
  unfold SLRU.has, SLRU.keys. rewrite orb_true_iff, in_app_iff, !has_In. tauto.
Qed.

Lemma consistent_keys_NoDup (c : SLRU.Cache) :
  SLRU.consistent c -> NoDup (SLRU.keys c).
Proof.
  intros [_ Hwf1 Hwf2 Hex _ _]. unfold SLRU.keys. apply NoDup_app; try assumption.
  intros k H1 H2. apply (Hex k). split; now apply has_In.
Qed.

(** X12.  [keys()] lists each key of the cache once: in every state a
    cache can reach no key occurs twice in it, a key is listed exactly when
    [has] is true for it, and [keys()] and [values()] both have [itemCount]
    elements. *)
Theorem keys_list_the_cache (options : option SLRU.Options) (c0 : SLRU.Cache)
    (ops : list SLRU.Call) :
  SLRU.constructor options = Ok c0 ->
  NoDup (SLRU.keys (SLRU.run ops c0)) /\
  (forall k, SLRU.has k (SLRU.run ops c0) = true <-> In k (SLRU.keys (SLRU.run ops c0))) /\
  List.length (SLRU.keys (SLRU.run ops c0)) = SLRU.itemCount (SLRU.run ops c0) /\
  List.length (SLRU.values (SLRU.run ops c0)) = SLRU.itemCount (SLRU.run ops c0).
Proof.
  intros Hnew.
  pose proof (run_consistent ops c0 (constructor_consistent _ _ Hnew)) as Hc.
  split; [now apply consistent_keys_NoDup|]. split; [intros k; apply keys_have|].
  unfold SLRU.keys, SLRU.values, SLRU.itemCount, LRU.keys, LRU.values, LRU.itemCount.
  now rewrite !length_app, !length_map.
Qed.

Lemma keys_list_the_cache_witness :
  let c := SLRU.run Sample.cascade Sample.cache22 in
  NoDup (SLRU.keys c) /\
  (forall k, SLRU.has k c = true <-> In k (SLRU.keys c)) /\
  List.length (SLRU.keys c) = SLRU.itemCount c /\
  List.length (SLRU.values c) = SLRU.itemCount c.
Proof.
  apply (keys_list_the_cache Sample.options22 Sample.cache22 Sample.cascade).
  reflexivity.
Defined.

Lemma values_peek (c : SLRU.Cache) :
  SLRU.consistent c ->
  map (fun k => SLRU.peek k c) (SLRU.keys c) = SLRU.values c.
Proof.
  intros Hc. unfold SLRU.keys, SLRU.values, LRU.keys, LRU.values.
  rewrite <- !map_app, map_map. apply map_ext_in. intros e He.
  apply (stored_peek (LRU.key e) (LRU.value e) c (consistent_exclusive_of _ Hc)).
  apply items_stored; [exact Hc|]. unfold SLRU.items. rewrite <- map_app.
  now apply (in_map SLRU.item) in He.
Qed.

(** X13.  [keys()] and [values()] go together: in every state a cache can
    reach, the i-th element of [values()] is what [peek] (and so [get])
    returns for the i-th element of [keys()]. *)
Theorem values_match_keys (options : option SLRU.Options) (c0 : SLRU.Cache)
    (ops : list SLRU.Call) :
  SLRU.constructor options = Ok c0 ->
  map (fun k => SLRU.peek k (SLRU.run ops c0)) (SLRU.keys (SLRU.run ops c0)) =
    SLRU.values (SLRU.run ops c0) /\
  map (fun k => fst (SLRU.get k (SLRU.run ops c0))) (SLRU.keys (SLRU.run ops c0)) =
    SLRU.values (SLRU.run ops c0).
Proof.
  intros Hnew.
  pose proof (run_consistent ops c0 (constructor_consistent _ _ Hnew)) as Hc.
  split; [now apply values_peek|].
  rewrite <- (values_peek _ Hc). apply map_ext. intros k. apply get_peek_same.
Qed.

Lemma values_match_keys_witness :
  let c := SLRU.run Sample.cascade Sample.cache22 in
  map (fun k => SLRU.peek k c) (SLRU.keys c) = SLRU.values c /\
  map (fun k => fst (SLRU.get k c)) (SLRU.keys c) = SLRU.values c.
Proof.
  apply (values_match_keys Sample.options22 Sample.cache22 Sample.cascade).
  reflexivity.
Defined.

(** X14.  A cache is empty when the constructor returns it, whatever the
    options: no keys, no values, count and size 0, and every key a miss. *)
Theorem fresh_cache_is_empty (options : option SLRU.Options) (c : SLRU.Cache) :
  SLRU.constructor options = Ok c ->
  SLRU.keys c = [] /\ SLRU.values c = [] /\
  SLRU.itemCount c = 0%nat /\ SLRU.length c = 0%N /\
  forall k, SLRU.has k c = false /\ SLRU.peek k c = undefined /\
            SLRU.get k c = (undefined, c).
Proof.
  intros Hnew. pose proof (constructor_Ok _ _ Hnew) as (_ & He1 & He2 & _).
  unfold SLRU.keys, SLRU.values, SLRU.itemCount, SLRU.length, LRU.keys, LRU.values,
    LRU.itemCount, LRU.LENGTH. rewrite He1, He2.
  repeat split.
  - unfold SLRU.has, LRU.has. now rewrite He1, He2.
  - unfold SLRU.peek, LRU.peek. now rewrite He1, He2.
  - unfold SLRU.get, LRU.get, LRU.peek. rewrite He1, He2. cbn. now destruct c.
Qed.

Lemma fresh_cache_is_empty_witness :
  SLRU.keys Sample.cache00 = [] /\ SLRU.values Sample.cache00 = [] /\
  SLRU.itemCount Sample.cache00 = 0%nat /\ SLRU.length Sample.cache00 = 0%N /\
  forall k, SLRU.has k Sample.cache00 = false /\
            SLRU.peek k Sample.cache00 = undefined /\
            SLRU.get k Sample.cache00 = (undefined, Sample.cache00).
Proof.
  apply (fresh_cache_is_empty Sample.options00 Sample.cache00). reflexivity.
Defined.

(** * What deletion costs *)

Lemma store_remove_lookups {W : Type} (k j : JsValue) (c : LRU.LRUCache W) :
  j <> k ->
  LRU.has j (LRU.with_list c (LRU.remove k (LRU.LRU_LIST c))) = LRU.has j c /\
  LRU.peek j (LRU.with_list c (LRU.remove k (LRU.LRU_LIST c))) = LRU.peek j c.
Proof.
  intros Hne. unfold LRU.has, LRU.peek. cbn [LRU.with_list LRU.LRU_LIST].
  now rewrite (find_remove_other k j _ Hne).
Qed.

Lemma del_unprotected (k : JsValue) (c : SLRU.Cache) :
  LRU.has k (SLRU.protectedLru c) = false ->
  SLRU.del k c =
    SLRU.mkCache (SLRU.protectedLru c)
                 (SLRU.probationary_del k (SLRU.probationaryLru c)).
Proof.
  intros Hprot. unfold SLRU.del.
  rewrite (store_del_miss k _ _ Hprot).
  f_equal. unfold SLRU.probationary_del at 1.
  now rewrite (store_del_miss k _ tt (probationary_del_has k _)).
Qed.

(** X10.  [del(key)] of a key the protected segment does not hold removes
    that key from the probationary segment and does nothing else: the
    protected segment is unchanged, and every other key is in the cache
    exactly if it was, with the value it had. *)
Theorem del_of_unprotected_key (key : JsValue) (c : SLRU.Cache) :
  LRU.has key (SLRU.protectedLru c) = false ->
  SLRU.protectedLru (SLRU.del key c) = SLRU.protectedLru c /\
  LRU.LRU_LIST (SLRU.probationaryLru (SLRU.del key c)) =
    LRU.remove key (LRU.LRU_LIST (SLRU.probationaryLru c)) /\
  forall j, j <> key ->
    SLRU.has j (SLRU.del key c) = SLRU.has j c /\
    SLRU.peek j (SLRU.del key c) = SLRU.peek j c.
Proof.
  intros Hprot. rewrite (del_unprotected key c Hprot), probationary_del_list.
  cbn [SLRU.protectedLru SLRU.probationaryLru LRU.with_list LRU.LRU_LIST].
  split; [reflexivity|]. split; [reflexivity|]. intros j Hne.
  destruct (store_remove_lookups key j (SLRU.probationaryLru c) Hne) as [Hh Hp].
  unfold SLRU.has, SLRU.peek. cbn [SLRU.protectedLru SLRU.probationaryLru].
  now rewrite Hh, Hp.
Qed.

Lemma del_of_unprotected_key_witness :
  let c := Sample.setupCache in
  SLRU.protectedLru (SLRU.del (JsStr "3") c) = SLRU.protectedLru c /\
  LRU.LRU_LIST (SLRU.probationaryLru (SLRU.del (JsStr "3") c)) =
    LRU.remove (JsStr "3") (LRU.LRU_LIST (SLRU.probationaryLru c)) /\
  forall j, j <> JsStr "3" ->
    SLRU.has j (SLRU.del (JsStr "3") c) = SLRU.has j c /\
    SLRU.peek j (SLRU.del (JsStr "3") c) = SLRU.peek j c.
Proof.
  apply (del_of_unprotected_key (JsStr "3") Sample.setupCache). reflexivity.
Defined.

(** The keys a store holds after a [set] that has to evict its least
    recently used entry: that entry's key is not among them. *)
Lemma set_evicts_last {W : Type} (k v : JsValue) (c : LRU.LRUCache W) (w : W)
    (l : list LRU.Entry) (t : LRU.Entry) :
  LRU.LRU_LIST c = l ++ [t] ->
  NoDup (LRU.keys c) ->
  LRU.has k c = false ->
  LRU.exceeds (LRU.LENGTH_CALCULATOR c v k + LRU.LENGTH c) (LRU.MAX c) = true ->
  LRU.has (LRU.key t) (fst (LRU.set k v c w)) = false.
Proof.
  intros Hl Hnd Hk Hover. apply has_false in Hk.
  unfold LRU.set. destruct (LRU.find k (LRU.LRU_LIST c)) eqn:Hf.
  { exfalso. apply Hk. apply find_Some in Hf as [<- Hin]. now apply in_map. }
  unfold LRU.trim. cbn [LRU.with_list LRU.LRU_LIST LRU.MAX rev].
  rewrite Hl, rev_app_distr. cbn [rev app LRU.evict].
  replace (LRU.total (t :: rev l ++ [LRU.mkEntry k v (LRU.LENGTH_CALCULATOR c v k)]))
    with (LRU.LENGTH_CALCULATOR c v k + LRU.LENGTH c)%N.
  2:{ unfold LRU.LENGTH. rewrite Hl. cbn [LRU.total fold_right].
      fold (LRU.total (rev l ++ [LRU.mkEntry k v (LRU.LENGTH_CALCULATOR c v k)])).
      rewrite !total_app, total_rev. cbn. lia. }
  change (LRU.MAX (LRU.with_list c ?x)) with (LRU.MAX c). rewrite Hover.
  destruct (evict_split (LRU.with_list c (LRU.mkEntry k v (LRU.LENGTH_CALCULATOR c v k)
                                            :: l ++ [t]))
              (rev l ++ [LRU.mkEntry k v (LRU.LENGTH_CALCULATOR c v k)])
              (LRU.call_dispose (LRU.with_list c (LRU.mkEntry k v
                 (LRU.LENGTH_CALCULATOR c v k) :: l ++ [t])) t w))
    as (gone & Hsplit & _).
  destruct (LRU.evict _ _ _) as [kept w'] eqn:E. cbn [fst] in *.
  apply has_false. unfold LRU.keys. cbn [LRU.with_list LRU.LRU_LIST].
  intros Hin. rewrite map_rev in Hin. apply in_rev in Hin.
  assert (Hin' : In (LRU.key t)
            (map LRU.key (rev l ++ [LRU.mkEntry k v (LRU.LENGTH_CALCULATOR c v k)]))).
  { rewrite Hsplit, map_app. apply in_or_app. now right. }
  rewrite map_app, map_rev in Hin'. apply in_app_or in Hin' as [Hin' | [Hin' | []]].
  - apply in_rev in Hin'. unfold LRU.keys in Hnd. rewrite Hl, map_app in Hnd.
    apply (NoDup_app_disjoint _ _ _ Hnd Hin'). now left.
  - cbn in Hin'. apply Hk. unfold LRU.keys. rewrite Hl, map_app, Hin'.
    apply in_or_app. right. now left.
Qed.

(** X15.  [del(key)] of a protected key is not free for the others: the
    hook first puts the entry into the probationary segment, and when that
    overflows the segment (the entry fitting it on its own), the least
    recently used probationary entry is evicted for good, although it is
    not the key deleted. *)
Theorem del_of_protected_key_may_evict (key : JsValue) (c : SLRU.Cache)
    (l : list LRU.Entry) (t : LRU.Entry) :
  SLRU.consistent c ->
  LRU.has key (SLRU.protectedLru c) = true ->
  LRU.LRU_LIST (SLRU.probationaryLru c) = l ++ [t] ->
  LRU.exceeds
    (LRU.LENGTH_CALCULATOR (SLRU.probationaryLru c)
       (LRU.peek key (SLRU.protectedLru c)) key)
    (LRU.MAX (SLRU.probationaryLru c)) = false ->
  LRU.exceeds
    (LRU.LENGTH_CALCULATOR (SLRU.probationaryLru c)
       (LRU.peek key (SLRU.protectedLru c)) key
     + LRU.LENGTH (SLRU.probationaryLru c))
    (LRU.MAX (SLRU.probationaryLru c)) = true ->
  SLRU.has (LRU.key t) c = true /\
  SLRU.has (LRU.key t) (SLRU.del key c) = false.
Proof.
  intros [Hw Hwf1 Hwf2 Hex _ _] Hprot Hl _ Hover.
  assert (Ht : LRU.has (LRU.key t) (SLRU.probationaryLru c) = true).
  { apply has_In. unfold LRU.keys. rewrite Hl, map_app. apply in_or_app.
    right. now left. }
  assert (Htp : LRU.has (LRU.key t) (SLRU.protectedLru c) = false).
  { destruct (LRU.has (LRU.key t) (SLRU.protectedLru c)) eqn:E; [|reflexivity].
    exfalso. apply (Hex (LRU.key t)). now split. }
  assert (Hkp : LRU.has key (SLRU.probationaryLru c) = false).
  { destruct (LRU.has key (SLRU.probationaryLru c)) eqn:E; [|reflexivity].
    exfalso. apply (Hex key). now split. }
  split; [unfold SLRU.has; now rewrite Ht, orb_true_r|].
  assert (Hnoop : SLRU.probationary_del key (SLRU.probationaryLru c) =
                  SLRU.probationaryLru c).
  { unfold SLRU.probationary_del. now rewrite (store_del_miss key _ tt Hkp). }
  pose proof (del_list key (SLRU.protectedLru c) (SLRU.probationaryLru c)) as Hlist.
  pose proof (del_hook_reinserts key c Hw Hprot) as Hhook.
  unfold SLRU.del. rewrite Hnoop in *.
  destruct (LRU.del key (SLRU.protectedLru c) (SLRU.probationaryLru c))
    as [protected1 probationary2].
  cbn [fst snd] in *. subst protected1 probationary2.
  apply has_split. cbn [SLRU.protectedLru SLRU.probationaryLru]. split.
  - apply has_false. unfold LRU.keys. cbn [LRU.with_list LRU.LRU_LIST].
    rewrite remove_keys. apply has_false in Htp. tauto.
  - apply has_false. rewrite probationary_del_keys. intros [Hin _].
    apply has_In in Hin. unfold SLRU.probationary_set in Hin.
    rewrite (set_evicts_last key _ _ tt l t Hl Hwf2 Hkp Hover) in Hin.
    discriminate Hin.
Qed.

Lemma del_of_protected_key_may_evict_witness :
  SLRU.has (JsStr "2") Sample.setupCache = true /\
  SLRU.has (JsStr "2") (SLRU.del (JsStr "0") Sample.setupCache) = false.
Proof.
  apply (del_of_protected_key_may_evict (JsStr "0") Sample.setupCache
           [LRU.mkEntry (JsStr "3") (JsStr "3") 1]
           (LRU.mkEntry (JsStr "2") (JsStr "2") 1)).
  - apply run_consistent, (constructor_consistent Sample.options22). reflexivity.
  - reflexivity.
  - reflexivity.
  - reflexivity.
  - reflexivity.
Defined.

(** * Round trips *)

Lemma store_eq {W : Type} (a b : LRU.LRUCache W) :
  LRU.config a = LRU.config b -> LRU.LRU_LIST a = LRU.LRU_LIST b -> a = b.
Proof.
  destruct a, b. unfold LRU.config. cbn. intros H ->. now injection H as -> -> -> ->.
Qed.

(** X16.  [reset()] brings a cache back to the state the constructor
    returned it in, whatever has been done to it since: afterwards it
    behaves as a new cache with the same options. *)
Theorem reset_restores_the_new_cache (options : option SLRU.Options)
    (c0 : SLRU.Cache) (ops : list SLRU.Call) :
  SLRU.constructor options = Ok c0 -> SLRU.reset (SLRU.run ops c0) = c0.
Proof.
  intros Hnew. pose proof (constructor_Ok _ _ Hnew) as (_ & He1 & He2 & _).
  pose proof (constructor_consistent _ _ Hnew) as Hc0.
  pose proof (run_consistent ops c0 Hc0) as Hc.
  destruct (run_config ops c0 Hc0) as [Hcfg1 Hcfg2].
  destruct (reset_config_both _ (SLRU.consistent_wired Hc)) as [Hr1 Hr2].
  destruct (reset_lists (SLRU.run ops c0)) as [Hl1 Hl2].
  destruct (SLRU.reset (SLRU.run ops c0)) as [protected1 probationary1].
  destruct c0 as [protected0 probationary0].
  cbn [SLRU.protectedLru SLRU.probationaryLru] in *. f_equal.
  - apply store_eq; congruence.
  - apply store_eq; congruence.
Qed.

Lemma reset_restores_the_new_cache_witness :
  SLRU.reset (SLRU.run Sample.cascade Sample.cache22) = Sample.cache22.
Proof.
  apply (reset_restores_the_new_cache Sample.options22 Sample.cache22 Sample.cascade).
  reflexivity.
Defined.

(** X17.  Insertion and deletion undo each other: when the key [k] is in
    neither segment and the probationary segment has room for the value [v],
    [set(k, v)] puts the entry in front of the probationary entries,
    dropping none, and a [del(k)] right after gives back the cache as it
    was. *)
Theorem del_undoes_insertion (k v : JsValue) (c : SLRU.Cache) :
  SLRU.has k c = false ->
  LRU.exceeds
    (LRU.LENGTH_CALCULATOR (SLRU.probationaryLru c) v k
     + LRU.LENGTH (SLRU.probationaryLru c))
    (LRU.MAX (SLRU.probationaryLru c)) = false ->
  LRU.LRU_LIST (SLRU.probationaryLru (SLRU.set k v c)) =
    LRU.mkEntry k v (LRU.LENGTH_CALCULATOR (SLRU.probationaryLru c) v k)
    :: LRU.LRU_LIST (SLRU.probationaryLru c) /\
  SLRU.del k (SLRU.set k v c) = c.
Proof.
  intros Hnew Hroom. rewrite (set_new_key k v c Hnew).
  apply has_split in Hnew as [H1 H2].
  pose proof (proj1 (has_false _ _) H2) as Habs.
  assert (Hset : SLRU.probationary_set k v (SLRU.probationaryLru c) =
            LRU.with_list (SLRU.probationaryLru c)
              (LRU.mkEntry k v (LRU.LENGTH_CALCULATOR (SLRU.probationaryLru c) v k)
               :: LRU.LRU_LIST (SLRU.probationaryLru c))).
  { unfold SLRU.probationary_set. rewrite set_unfold, trim_fits.
    - cbn [fst LRU.with_list LRU.LRU_LIST]. unfold LRU.set_list.
      now rewrite (remove_absent _ _ Habs).
    - unfold LRU.LENGTH, LRU.set_list. cbn [LRU.with_list LRU.LRU_LIST LRU.MAX].
      rewrite (remove_absent _ _ Habs). exact Hroom. }
  cbn [SLRU.probationaryLru]. rewrite Hset. split; [reflexivity|].
  rewrite del_unprotected by exact H1.
  cbn [SLRU.protectedLru SLRU.probationaryLru]. rewrite probationary_del_list.
  cbn [LRU.with_list LRU.LRU_LIST LRU.remove filter LRU.key].
  rewrite strict_eq_refl. cbn [negb].
  fold (LRU.remove k (LRU.LRU_LIST (SLRU.probationaryLru c))).
  rewrite (remove_absent _ _ Habs).
  change (LRU.with_list (LRU.with_list ?p ?x) ?y) with (LRU.with_list p y).
  rewrite with_list_self. now destruct c.
Qed.

Lemma del_undoes_insertion_witness :
  let c := SLRU.run Sample.cascade Sample.cache22 in
  LRU.LRU_LIST (SLRU.probationaryLru (SLRU.set (JsNum 7) (JsStr "7") c)) =
    LRU.mkEntry (JsNum 7) (JsStr "7")
      (LRU.LENGTH_CALCULATOR (SLRU.probationaryLru c) (JsStr "7") (JsNum 7))
    :: LRU.LRU_LIST (SLRU.probationaryLru c) /\
  SLRU.del (JsNum 7) (SLRU.set (JsNum 7) (JsStr "7") c) = c.
Proof.
  apply (del_undoes_insertion (JsNum 7) (JsStr "7")
           (SLRU.run Sample.cascade Sample.cache22)); reflexivity.
Defined.
